(** * MergeLocals: a shallow embedding of [src/passes/MergeLocals.cpp]

    The pass works on Binaryen expression nodes that live in an arena and
    are addressed by pointer.  Nodes are mutated in place.  The embedding
    keeps that shape: a heap maps node addresses to node contents, the
    post-order walker and the optimizer are heap transformers, and the
    local graph (influences and reaching sets, keyed by node address) is
    consulted through an explicit oracle. *)

From stdpp Require Import gmap list fin_maps fin_sets.

Open Scope Z_scope.
Open Scope nat_scope.

(** * The embedding *)

(** ** Expression nodes *)

(** [Expression*]: the address of a node in the module arena. *)
Abbreviation ptr := positive.

(** [Index]: the number of a local (a 32-bit unsigned integer; the pass
    only compares indices). *)
Abbreviation Index := N.

Inductive BinaryOp := AddInt32 | SubInt32 | MulInt32.

(** Modelled from the spec: the node kinds of [wasm.h], which is not part
    of the sources at hand.  The pass looks only at [GetLocal] (a read of a
    slot) and [SetLocal] (a write of a slot with a value operand); every
    other kind matters only through the list of its operands.  [Other]
    stands for any kind that is not listed, with its operands in walking
    order. *)
Inductive Expression :=
| Nop
| Block (list : list ptr)
| If (condition ifTrue : ptr) (ifFalse : option ptr)
| Const (value : Z)
| Binary (op : BinaryOp) (left right : ptr)
| Drop (value : ptr)
| GetLocal (index : Index)
| SetLocal (index : Index) (value : ptr)
| Other (id : N) (operands : list ptr).

#[global] Instance BinaryOp_eq_dec : EqDecision BinaryOp.
Proof. solve_decision. Defined.

#[global] Instance Expression_eq_dec : EqDecision Expression.
Proof. solve_decision. Defined.

(** The operands of a node, in the order in which the post-order walker
    reaches them. *)
Definition children (e : Expression) : list ptr :=
  match e with
  | Nop | Const _ | GetLocal _ => []
  | Block l => l
  | If c t f => c :: t :: match f with Some f' => [f'] | None => [] end
  | Binary _ l r => [l; r]
  | Drop v => [v]
  | SetLocal _ v => [v]
  | Other _ l => l
  end.

Definition isGetLocal (e : Expression) : bool :=
  match e with GetLocal _ => true | _ => false end.

Definition isSetLocal (e : Expression) : bool :=
  match e with SetLocal _ _ => true | _ => false end.

(** ** The walker state *)

(** The pass instance: the arena it mutates and its [copies] vector. *)
Record State := mkState {
  heap : gmap ptr Expression;
  copies : list ptr
}.

(** ** [visitSetLocal] *)

(** [builder.makeSetLocal] takes a node from the arena that no live node
    occupies. *)
Definition alloc (h : gmap ptr Expression) : ptr := fresh (dom h).

Definition visitSetLocal (curr : ptr) (st : State) : State :=
  match heap st !! curr with
  | Some (SetLocal index value) =>
      match heap st !! value with
      | Some (GetLocal gindex) =>
          if decide (gindex ≠ index) then
            let trivial := alloc (heap st) in
            mkState (<[curr := SetLocal index trivial]>
                       (<[trivial := SetLocal gindex value]> (heap st)))
                    (copies st ++ [curr])
          else st
      | _ => st
      end
  | _ => st
  end.

(** The unified visitor: only [SetLocal] nodes have a visit that does
    anything. *)
Definition visit (curr : ptr) (st : State) : State :=
  match heap st !! curr with
  | Some (SetLocal _ _) => visitSetLocal curr st
  | _ => st
  end.

(** ** The post-order walk *)

Definition foldM_opt {A B} (f : B → A → option A) : list B → A → option A :=
  fix go l a :=
    match l with
    | [] => Some a
    | b :: l' => match f b a with Some a' => go l' a' | None => None end
    end.

(** [walk fuel currp st]: scan the node at [currp] (its operands are read
    when the node is scanned), walk the operands in order, then visit the
    node.  [None] when the fuel runs out or a pointer dangles. *)
Fixpoint walk (fuel : nat) (currp : ptr) (st : State) : option State :=
  match fuel with
  | O => None
  | S fuel' =>
      match heap st !! currp with
      | None => None
      | Some e =>
          match foldM_opt (walk fuel') (children e) st with
          | Some st' => Some (visit currp st')
          | None => None
          end
      end
  end.

(** The nodes of the tree under [p], in post-order. *)
Fixpoint postorder (fuel : nat) (h : gmap ptr Expression) (p : ptr)
  : option (list ptr) :=
  match fuel with
  | O => None
  | S fuel' =>
      match h !! p with
      | None => None
      | Some e =>
          match mapM (postorder fuel' h) (children e) with
          | Some ls => Some (concat ls ++ [p])
          | None => None
          end
      end
  end.

(** ** The local graph *)

(** Modelled from the spec: the result of [LocalGraph] with
    [computeInfluences] ([ir/local-graph.h] is not part of the sources at
    hand).  [getSetses] maps a read to the writes that may reach it, with
    [None] for the null pointer that stands for the value a local has on
    entry; [setInfluences] maps a write to the reads that may observe it. *)
Record LocalGraph := mkLocalGraph {
  getSetses : gmap ptr (gset (option ptr));
  setInfluences : gmap ptr (gset ptr)
}.

(** [localGraph.getSetses[get]] and [localGraph.setInfluences[set]]: a key
    that is absent reads as the empty set. *)
Definition getSets (G : LocalGraph) (get : ptr) : gset (option ptr) :=
  default ∅ (getSetses G !! get).

Definition influences (G : LocalGraph) (set : ptr) : gset ptr :=
  default ∅ (setInfluences G !! set).

(** ** Outcomes *)

(** A run completes, or an [assert] (or a checked [cast]) fires, or it is
    stuck: out of fuel, or a pointer used at a type its node does not
    have. *)
Inductive outcome (A : Type) :=
| Ok (a : A)
| AssertFail
| Stuck.
Arguments Ok {A} a.
Arguments AssertFail {A}.
Arguments Stuck {A}.

Definition obind {A B} (m : outcome A) (k : A → outcome B) : outcome B :=
  match m with
  | Ok a => k a
  | AssertFail => AssertFail
  | Stuck => Stuck
  end.

Notation "x ←! m ; k" := (obind m (λ x, k))
  (at level 20, m at level 100, k at level 200, right associativity,
   only parsing).

Definition foldM_out {A B} (f : A → B → outcome A) : list B → A → outcome A :=
  fix go l a :=
    match l with
    | [] => Ok a
    | b :: l' => a' ←! f a b; go l' a'
    end.

(** ** The loops of [optimizeCopies] *)

(** The body of the first loop over [setInfluences[trivial]]. *)
Definition checkInfluenced (G : LocalGraph) (h : gmap ptr Expression)
    (trivial : ptr) (canDoThemAll : bool) (influencedGet : ptr)
  : outcome bool :=
  match h !! influencedGet, h !! trivial with
  | Some (GetLocal gindex), Some (SetLocal tindex _) =>
      if decide (gindex = tindex) then
        if decide (size (getSets G influencedGet) = 1) then
          if decide (head (elements (getSets G influencedGet)) = Some (Some trivial))
          then Ok canDoThemAll
          else AssertFail
        else Ok false
      else AssertFail
  | _, _ => Stuck
  end.

Definition setIndex (index : Index) (e : Expression) : Expression :=
  match e with
  | GetLocal _ => GetLocal index
  | SetLocal _ v => SetLocal index v
  | _ => e
  end.

Definition setValue (value : ptr) (e : Expression) : Expression :=
  match e with
  | SetLocal i _ => SetLocal i value
  | _ => e
  end.

(** The body of the second loop: [influencedGet->index = copy->index]. *)
Definition redirect (copy : ptr) (h : gmap ptr Expression) (influencedGet : ptr)
  : gmap ptr Expression :=
  match h !! copy with
  | Some (SetLocal cindex _) => alter (setIndex cindex) influencedGet h
  | _ => h
  end.

(** One iteration of the loop over [copies]. *)
Definition optimizeCopy (G : LocalGraph) (h : gmap ptr Expression) (copy : ptr)
  : outcome (gmap ptr Expression) :=
  match h !! copy with
  | Some (SetLocal _ trivial) =>
      match h !! trivial with
      | Some (SetLocal _ _) =>
          let influenced := elements (influences G trivial) in
          canDoThemAll ←! foldM_out (checkInfluenced G h trivial) influenced true;
          let h' := if canDoThemAll : bool
                    then foldl (redirect copy) h influenced else h in
          match h' !! trivial with
          | Some (SetLocal _ tvalue) => Ok (alter (setValue tvalue) copy h')
          | _ => Stuck
          end
      | Some _ => AssertFail
      | None => Stuck
      end
  | _ => Stuck
  end.

(** The loop over [copies]. *)
Definition optimizeLoop (G : LocalGraph) (copies : list ptr)
    (h : gmap ptr Expression) : outcome (gmap ptr Expression) :=
  foldM_out (optimizeCopy G) copies h.

(** The pass asks for the local graph of the function as it stands; the
    analysis is not part of the pass, so the request is an event and the
    rest of the run is its continuation. *)
Inductive prog (A : Type) :=
| Ret (r : outcome A)
| ComputeGraph (h : gmap ptr Expression) (func : ptr) (k : LocalGraph → prog A).
Arguments Ret {A} r.
Arguments ComputeGraph {A} h func k.

(** ** [optimizeCopies] and [doWalkFunction] *)

(** [optimizeCopies]: compute all dependencies, then optimize each
    copy. *)
Definition optimizeCopies (func : ptr) (st : State)
  : prog (gmap ptr Expression) :=
  ComputeGraph (heap st) func
    (λ localGraph, Ret (optimizeLoop localGraph (copies st) (heap st))).

(** [doWalkFunction]: the instrumenting walk over the body, then
    [optimizeCopies]. *)
Definition doWalkFunction (fuel : nat) (func : ptr) (h : gmap ptr Expression)
  : prog (gmap ptr Expression) :=
  match walk fuel func (mkState h []) with
  | None => Ret Stuck
  | Some st => optimizeCopies func st
  end.

(** An analysis answers the request. *)
Definition Analysis := gmap ptr Expression → ptr → LocalGraph.

Fixpoint run {A} (LG : Analysis) (p : prog A) : outcome A :=
  match p with
  | Ret r => r
  | ComputeGraph h func k => run LG (k (LG h func))
  end.

(** The requests made along a run, in order. *)
Fixpoint requests {A} (LG : Analysis) (p : prog A)
  : list (gmap ptr Expression * ptr) :=
  match p with
  | Ret _ => []
  | ComputeGraph h func k => (h, func) :: requests LG (k (LG h func))
  end.

(** The whole pass on one function, with the analysis plugged in. *)
Definition runPass (LG : Analysis) (fuel : nat) (func : ptr)
    (h : gmap ptr Expression) : outcome (gmap ptr Expression) :=
  run LG (doWalkFunction fuel func h).

(** * Running a function body *)

Definition wrap32 (z : Z) : Z := (z mod 2 ^ 32)%Z.

Definition evalBinary (op : BinaryOp) (a b : Z) : Z :=
  wrap32 match op with
         | AddInt32 => a + b
         | SubInt32 => a - b
         | MulInt32 => a * b
         end%Z.

Definition evalList {A} (f : ptr → A → option (A * option Z))
  : list ptr → A → option Z → option (A * option Z) :=
  fix go l a last :=
    match l with
    | [] => Some (a, last)
    | p :: l' =>
        match f p a with
        | Some (a', v) => go l' a' v
        | None => None
        end
    end.

(** Modelled from the spec: the meaning of the listed node kinds (the
    interpreter is not part of the sources at hand).  Locals are 32-bit
    and start at zero unless they are parameters; a write stores the value
    of its operand and, in expression position, yields the value just
    written; a block yields the value of its last element.  [Other] nodes
    have no meaning here. *)
Fixpoint eval (fuel : nat) (h : gmap ptr Expression) (p : ptr)
    (locals : gmap Index Z) : option (gmap Index Z * option Z) :=
  match fuel with
  | O => None
  | S fuel' =>
      match h !! p with
      | None => None
      | Some Nop => Some (locals, None)
      | Some (Const v) => Some (locals, Some (wrap32 v))
      | Some (GetLocal i) => Some (locals, Some (default 0%Z (locals !! i)))
      | Some (SetLocal i v) =>
          match eval fuel' h v locals with
          | Some (ls, Some x) => Some (<[i := x]> ls, Some x)
          | _ => None
          end
      | Some (Drop v) =>
          match eval fuel' h v locals with
          | Some (ls, Some _) => Some (ls, None)
          | _ => None
          end
      | Some (Binary op l r) =>
          match eval fuel' h l locals with
          | Some (ls, Some a) =>
              match eval fuel' h r ls with
              | Some (ls', Some b) => Some (ls', Some (evalBinary op a b))
              | _ => None
              end
          | _ => None
          end
      | Some (Block l) => evalList (eval fuel' h) l locals None
      | Some (If c t f) =>
          match eval fuel' h c locals with
          | Some (ls, Some x) =>
              if decide (x = 0%Z)
              then match f with
                   | Some f' => eval fuel' h f' ls
                   | None => Some (ls, None)
                   end
              else eval fuel' h t ls
          | _ => None
          end
      | Some (Other _ _) => None
      end
  end.

(** The value a function body returns for given parameters. *)
Definition result (fuel : nat) (h : gmap ptr Expression) (body : ptr)
    (params : gmap Index Z) : option (option Z) :=
  snd <$> eval fuel h body params.

(** * A local graph for loop-free bodies *)

(** The writes that may be the current value of each local; a local that
    has no entry still holds its value on entry ([None]). *)
Definition currentSets (m : gmap Index (gset (option ptr))) (i : Index)
  : gset (option ptr) :=
  default {[ None ]} (m !! i).

Definition mergeMappings (a b : gmap Index (gset (option ptr)))
  : gmap Index (gset (option ptr)) :=
  merge (λ x y, match x, y with
                | None, None => None
                | _, _ => Some (default {[ None ]} x ∪ default {[ None ]} y)
                end) a b.

Definition flowList {A} (f : ptr → A → option A) : list ptr → A → option A :=
  fix go l a :=
    match l with
    | [] => Some a
    | p :: l' => match f p a with Some a' => go l' a' | None => None end
    end.

(** Modelled from the spec: reaching writes ("the set of write
    instructions that may be its reaching definition"), for bodies built
    from the listed node kinds, which have no loops and no branches out of
    a block.  A read is reached by the current writes of its local; a
    write becomes the only current write of its local once its operand is
    done; the two arms of an [If] start from the state after the condition
    and their states are joined. *)
Fixpoint flow (fuel : nat) (h : gmap ptr Expression) (p : ptr)
    (s : gmap Index (gset (option ptr)) * gmap ptr (gset (option ptr)))
  : option (gmap Index (gset (option ptr)) * gmap ptr (gset (option ptr))) :=
  match fuel with
  | O => None
  | S fuel' =>
      match h !! p with
      | None => None
      | Some Nop | Some (Const _) => Some s
      | Some (GetLocal i) => Some (s.1, <[p := currentSets s.1 i]> s.2)
      | Some (SetLocal i v) =>
          match flow fuel' h v s with
          | Some s' => Some (<[i := {[ Some p ]}]> s'.1, s'.2)
          | None => None
          end
      | Some (Drop v) => flow fuel' h v s
      | Some (Binary _ l r) => flowList (flow fuel' h) [l; r] s
      | Some (Block l) => flowList (flow fuel' h) l s
      | Some (If c t f) =>
          match flow fuel' h c s with
          | Some sc =>
              match flow fuel' h t sc with
              | Some st =>
                  match f with
                  | Some f' =>
                      match flow fuel' h f' (sc.1, st.2) with
                      | Some sf => Some (mergeMappings st.1 sf.1, sf.2)
                      | None => None
                      end
                  | None => Some (mergeMappings st.1 sc.1, st.2)
                  end
              | None => None
              end
          | None => None
          end
      | Some (Other _ _) => None
      end
  end.

(** Modelled from the spec: influences are the converse of reaching
    writes ("for every write instruction, the set of read instructions
    that may observe its value"). *)
Definition computeInfluences (gs : gmap ptr (gset (option ptr)))
  : gmap ptr (gset ptr) :=
  map_fold (λ get sets acc,
              set_fold (λ w acc',
                          match w with
                          | Some w' =>
                              <[w' := {[ get ]} ∪ default ∅ (acc' !! w')]> acc'
                          | None => acc'
                          end) acc sets)
           ∅ gs.

Definition localGraph (fuel : nat) : Analysis :=
  λ h body,
    match flow fuel h body (∅, ∅) with
    | Some s => mkLocalGraph s.2 (computeInfluences s.2)
    | None => mkLocalGraph ∅ ∅
    end.

(** * The vocabulary of the statements *)

(** A function body is a tree: every node is owned by exactly one parent,
    so no node occurs twice in the traversal. *)
Definition is_tree (fuel : nat) (h : gmap ptr Expression) (body : ptr) : bool :=
  match postorder fuel h body with
  | Some l => bool_decide (NoDup l)
  | None => false
  end.

(** A copy: a [SetLocal] whose value is a [GetLocal] of another index. *)
Definition is_copy (h : gmap ptr Expression) (p : ptr) : bool :=
  match h !! p with
  | Some (SetLocal index value) =>
      match h !! value with
      | Some (GetLocal gindex) => bool_decide (gindex ≠ index)
      | _ => false
      end
  | _ => false
  end.

(** No node of the tree under [body] is a copy. *)
Definition no_copies (fuel : nat) (h : gmap ptr Expression) (body : ptr)
  : bool :=
  match postorder fuel h body with
  | Some l => forallb (λ p, negb (is_copy h p)) l
  | None => false
  end.

(** Visiting the nodes of a list one after the other. *)
Definition visit_all (l : list ptr) (st : State) : State :=
  foldl (λ s p, visit p s) st l.

(** What the walk has done to the heap [h0] once the nodes of [l] have
    been visited. *)
Record instrumented_from (st0 : State) (l : list ptr) (st : State) : Prop := {
  inst_copies :
    copies st = copies st0 ++ filter (λ p, is_copy (heap st0) p = true) l;
  inst_same : ∀ (q : ptr) e,
    heap st0 !! q = Some e →
    ¬ (q ∈ l ∧ is_copy (heap st0) q = true) →
    heap st !! q = Some e;
  inst_copy : ∀ q : ptr,
    q ∈ l → is_copy (heap st0) q = true →
    ∃ D g S t,
      heap st0 !! q = Some (SetLocal D g) ∧
      heap st0 !! g = Some (GetLocal S) ∧ S ≠ D ∧
      heap st0 !! t = None ∧
      heap st !! q = Some (SetLocal D t) ∧
      heap st !! t = Some (SetLocal S g);
  inst_new : ∀ (t : ptr) e,
    heap st0 !! t = None → heap st !! t = Some e →
    ∃ c D, c ∈ l ∧ is_copy (heap st0) c = true ∧
           heap st !! c = Some (SetLocal D t);
  inst_inj : ∀ (c1 c2 : ptr) D1 D2 (t : ptr),
    c1 ∈ l → c2 ∈ l →
    is_copy (heap st0) c1 = true → is_copy (heap st0) c2 = true →
    heap st !! c1 = Some (SetLocal D1 t) →
    heap st !! c2 = Some (SetLocal D2 t) →
    c1 = c2
}.

(** The decision of the first loop: every influenced read has exactly one
    reaching write. *)
Definition eligible (G : LocalGraph) (trivial : ptr) : bool :=
  forallb (λ r, bool_decide (size (getSets G r) = 1))
          (elements (influences G trivial)).

(** The contract of the local graph on the heap it was computed for: a
    write influences only reads of its own index, and it is among the
    reaching writes of every read it influences. *)
Definition influence_ok (h : gmap ptr Expression) (G : LocalGraph)
    (w r : ptr) : bool :=
  match h !! w, h !! r with
  | Some (SetLocal i _), Some (GetLocal j) =>
      bool_decide (j = i) && bool_decide (Some w ∈ getSets G r)
  | _, _ => false
  end.

Definition graph_contract (h : gmap ptr Expression) (G : LocalGraph) : bool :=
  forallb (λ wrs, forallb (influence_ok h G wrs.1) (elements wrs.2))
          (map_to_list (setInfluences G)).

(** What the walk hands to the optimizer: the recorded copies are distinct
    nodes [SetLocal D trivial] whose [trivial] is a [SetLocal S get] of a
    read of [S]; distinct copies have distinct trivial writes, and no
    trivial write is itself recorded. *)
Record wf_copies (h : gmap ptr Expression) (cs : list ptr) : Prop := {
  wfc_nodup : NoDup cs;
  wfc_shape : ∀ c, c ∈ cs →
    ∃ D t S g, h !! c = Some (SetLocal D t) ∧
               h !! t = Some (SetLocal S g) ∧
               h !! g = Some (GetLocal S) ∧ S ≠ D;
  wfc_inj : ∀ c1 c2 D1 D2 t,
    c1 ∈ cs → c2 ∈ cs →
    h !! c1 = Some (SetLocal D1 t) → h !! c2 = Some (SetLocal D2 t) →
    c1 = c2;
  wfc_trivial : ∀ c D t,
    c ∈ cs → h !! c = Some (SetLocal D t) → t ∉ cs
}.

(** The heap after the copies of [done] have been processed, in terms of
    the instrumented heap [h1] the graph was computed for. *)
Record optimized_upto (h1 : gmap ptr Expression) (G : LocalGraph)
    (done : list ptr) (h : gmap ptr Expression) : Prop := {
  opt_other : ∀ q e,
    h1 !! q = Some e → isGetLocal e = false → q ∉ done → h !! q = Some e;
  opt_clean : ∀ c D t S g,
    c ∈ done → h1 !! c = Some (SetLocal D t) → h1 !! t = Some (SetLocal S g) →
    h !! c = Some (SetLocal D g);
  opt_get : ∀ r i,
    h1 !! r = Some (GetLocal i) → ∃ j, h !! r = Some (GetLocal j);
  opt_merged : ∀ r i c D t,
    h1 !! r = Some (GetLocal i) →
    c ∈ done → h1 !! c = Some (SetLocal D t) →
    eligible G t = true → r ∈ influences G t →
    h !! r = Some (GetLocal D);
  opt_kept : ∀ r i,
    h1 !! r = Some (GetLocal i) →
    (∀ c D t, c ∈ done → h1 !! c = Some (SetLocal D t) →
              eligible G t = true → r ∉ influences G t) →
    h !! r = Some (GetLocal i);
  opt_none : ∀ q, h1 !! q = None → h !! q = None
}.

(** Whether the merge loop of the recorded copy [c] assigns the index of
    the read [r]. *)
Definition merges (G : LocalGraph) (h1 : gmap ptr Expression) (r c : ptr)
  : bool :=
  match h1 !! c with
  | Some (SetLocal _ t) => eligible G t && bool_decide (r ∈ influences G t)
  | _ => false
  end.

(** The reads to which the second loop of [optimizeCopy] assigns an index
    when it processes the recorded copy [c], in order: the reads its
    trivial write influences when the first loop has left [canDoThemAll]
    set, none otherwise. *)
Definition assigned_by (G : LocalGraph) (h1 : gmap ptr Expression) (c : ptr)
  : list ptr :=
  match h1 !! c with
  | Some (SetLocal _ t) =>
      if eligible G t then elements (influences G t) else []
  | _ => []
  end.

(** All the index assignments of a run of the loop over [cs], in order. *)
Definition assignments (G : LocalGraph) (h1 : gmap ptr Expression)
    (cs : list ptr) : list ptr :=
  concat (map (assigned_by G h1) cs).

(** One iteration of the loop over the copies, reduced to its writes: the
    index assignments of [assigned_by], then the removal of the trivial
    write from under the copy. *)
Definition replay (G : LocalGraph) (h1 h : gmap ptr Expression) (c : ptr)
  : gmap ptr Expression :=
  match h1 !! c with
  | Some (SetLocal _ t) =>
      match h1 !! t with
      | Some (SetLocal _ g) =>
          alter (setValue g) c (foldl (redirect c) h (assigned_by G h1 c))
      | _ => h
      end
  | _ => h
  end.

(** The recorded copy [c] is in [h'] the plain write of a read of [S] that
    it was in [h0]. *)
Definition restored_as_it_started (h0 h' : gmap ptr Expression) (c : ptr)
  : Prop :=
  ∃ D S get,
    h0 !! c = Some (SetLocal D get) ∧ h0 !! get = Some (GetLocal S) ∧
    h' !! c = Some (SetLocal D get) ∧ h' !! get = Some (GetLocal S).

(** * Example bodies *)

(** [x = y; x = x + 1; y] with [y] local 0 and [x] local 1. *)
Definition increment_after_copy : gmap ptr Expression :=
  list_to_map
    [(1%positive, Block [2; 4; 8]%positive);
     (2%positive, SetLocal 1%N 3%positive);
     (3%positive, GetLocal 0%N);
     (4%positive, SetLocal 1%N 5%positive);
     (5%positive, Binary AddInt32 6%positive 7%positive);
     (6%positive, GetLocal 1%N);
     (7%positive, Const 1%Z);
     (8%positive, GetLocal 0%N)].

(** [D = S; w = S + 1; w] with [S] local 0, [D] local 1, [w] local 2. *)
Definition copy_then_read : gmap ptr Expression :=
  list_to_map
    [(1%positive, Block [2; 4; 8]%positive);
     (2%positive, SetLocal 1%N 3%positive);
     (3%positive, GetLocal 0%N);
     (4%positive, SetLocal 2%N 5%positive);
     (5%positive, Binary AddInt32 6%positive 7%positive);
     (6%positive, GetLocal 0%N);
     (7%positive, Const 1%Z);
     (8%positive, GetLocal 2%N)].

(** [if c { S = 1 } else { S = 2 }; D = S; if c2 { S = 9 }; w = S + 1]
    with [S] local 0, [D] local 1, [w] local 2, [c] local 3, [c2] local 4. *)
Definition copy_then_branch : gmap ptr Expression :=
  list_to_map
    [(1%positive, Block [2; 8; 10; 14]%positive);
     (2%positive, If 3%positive 4%positive (Some 6%positive));
     (3%positive, GetLocal 3%N);
     (4%positive, SetLocal 0%N 5%positive);
     (5%positive, Const 1%Z);
     (6%positive, SetLocal 0%N 7%positive);
     (7%positive, Const 2%Z);
     (8%positive, SetLocal 1%N 9%positive);
     (9%positive, GetLocal 0%N);
     (10%positive, If 11%positive 12%positive None);
     (11%positive, GetLocal 4%N);
     (12%positive, SetLocal 0%N 13%positive);
     (13%positive, Const 9%Z);
     (14%positive, SetLocal 2%N 15%positive);
     (15%positive, Binary AddInt32 16%positive 17%positive);
     (16%positive, GetLocal 0%N);
     (17%positive, Const 1%Z)].

(** [D1 = S; D2 = S] with [S] local 0, [D1] local 1, [D2] local 2. *)
Definition two_copies : gmap ptr Expression :=
  list_to_map
    [(1%positive, Block [2; 4]%positive);
     (2%positive, SetLocal 1%N 3%positive);
     (3%positive, GetLocal 0%N);
     (4%positive, SetLocal 2%N 5%positive);
     (5%positive, GetLocal 0%N)].

(** [x = x; x = x + 1; x] with [x] local 0: no write copies another
    local. *)
Definition no_copy : gmap ptr Expression :=
  list_to_map
    [(1%positive, Block [2; 4; 8]%positive);
     (2%positive, SetLocal 0%N 3%positive);
     (3%positive, GetLocal 0%N);
     (4%positive, SetLocal 0%N 5%positive);
     (5%positive, Binary AddInt32 6%positive 7%positive);
     (6%positive, GetLocal 0%N);
     (7%positive, Const 1%Z);
     (8%positive, GetLocal 0%N)].

(** The state in which the walk leaves a body ([body] is node 1 in all the
    examples). *)
Definition walked (fuel : nat) (h : gmap ptr Expression) : State :=
  default (mkState h []) (walk fuel 1%positive (mkState h [])).

(** The heap the pass leaves for an example body, with the local graph for
    loop-free bodies. *)
Definition passed (fuel : nat) (h : gmap ptr Expression)
  : gmap ptr Expression :=
  match runPass (localGraph fuel) fuel 1%positive h with
  | Ok h' => h'
  | _ => h
  end.

(** A graph that breaks the contract on the instrumented [two_copies]: the
    read of the second copy is reported as influenced by the trivial write
    of the first copy (node 6), but with the trivial write of the second
    copy (node 7) as its single reaching write. *)
Definition misreported_graph : LocalGraph :=
  mkLocalGraph {[ 5%positive := {[ Some 7%positive ]} ]}
               {[ 6%positive := {[ 5%positive ]} ]}.

(** What one node may become under the loop over the copies: a read stays
    a read, a write keeps its index, any other node is unchanged. *)
Definition kept_shape (e e' : Expression) : Prop :=
  match e with
  | GetLocal _ => ∃ j, e' = GetLocal j
  | SetLocal D _ => ∃ v, e' = SetLocal D v
  | _ => e' = e
  end.

(** The same for a heap: no node appears or disappears, and each keeps its
    shape. *)
Definition heap_kept_shape (h h' : gmap ptr Expression) : Prop :=
  ∀ p : ptr,
    match h !! p with
    | None => h' !! p = None
    | Some e => ∃ e', h' !! p = Some e' ∧ kept_shape e e'
    end.

(** The recorded copies are distinct and each has a [SetLocal] for
    value. *)
Definition records_wrapped (st : State) : Prop :=
  NoDup (copies st) ∧
  ∀ c, c ∈ copies st →
    ∃ D t S g, heap st !! c = Some (SetLocal D t) ∧
               heap st !! t = Some (SetLocal S g).

(** Not a tree: the copy [D = S] (node 2) is the operand of the block
    twice, so the walk visits it twice. *)
Definition shared_copy : gmap ptr Expression :=
  list_to_map
    [(1%positive, Block [2; 2]%positive);
     (2%positive, SetLocal 1%N 3%positive);
     (3%positive, GetLocal 0%N)].

(** [D = S; D = S] with [S] local 0 and [D] local 1: two copies into the
    same local. *)
Definition same_destination : gmap ptr Expression :=
  list_to_map
    [(1%positive, Block [2; 4]%positive);
     (2%positive, SetLocal 1%N 3%positive);
     (3%positive, GetLocal 0%N);
     (4%positive, SetLocal 1%N 5%positive);
     (5%positive, GetLocal 0%N)].

(** An analysis that answers for the instrumented [two_copies] as
    [localGraph] does and, for any other heap, reports the read of the
    first copy (node 3) as having the trivial write of the second copy
    (node 7) for single reaching write.  A pass that asked again after the
    first copy had been processed would be told to rename node 3. *)
Definition stale_elsewhere : Analysis :=
  λ h body,
    if decide (h = heap (walked 10 two_copies))
    then localGraph 10 h body
    else mkLocalGraph {[ 3%positive := {[ Some 7%positive ]} ]}
                      {[ 7%positive := {[ 3%positive ]} ]}.

(** By computation, for closed goals. *)
Ltac by_compute := apply (bool_decide_eq_true_1 _); vm_compute; reflexivity.

(** * The instrumentation walk *)

Section Walker.

Implicit Types (h : gmap ptr Expression) (st : State) (p q : ptr).

Lemma alloc_fresh h : h !! alloc h = None.
Proof. unfold alloc. apply not_elem_of_dom. apply is_fresh. Qed.

Lemma is_copy_true h p :
  is_copy h p = true ↔
  ∃ D g S, h !! p = Some (SetLocal D g) ∧ h !! g = Some (GetLocal S) ∧ S ≠ D.
Proof.
  unfold is_copy. split.
  - destruct (h !! p) as [[]|] eqn:Hp; try discriminate.
    destruct (h !! value) as [[]|] eqn:Hv; try discriminate.
    intros Hd%bool_decide_eq_true. eauto 6.
  - intros (D & g & S & -> & -> & Hne). by apply bool_decide_eq_true.
Qed.

Lemma visit_not_copy p st : is_copy (heap st) p = false → visit p st = st.
Proof.
  unfold is_copy, visit, visitSetLocal.
  destruct (heap st !! p) as [[]|]; try done.
  destruct (heap st !! value) as [[]|]; try done.
  intros Hd%bool_decide_eq_false. by rewrite decide_False.
Qed.

Lemma visit_copy p st D g S :
  heap st !! p = Some (SetLocal D g) →
  heap st !! g = Some (GetLocal S) →
  S ≠ D →
  visit p st =
    mkState (<[p := SetLocal D (alloc (heap st))]>
               (<[alloc (heap st) := SetLocal S g]> (heap st)))
            (copies st ++ [p]).
Proof.
  intros Hp Hg Hne. unfold visit, visitSetLocal. rewrite Hp, Hg.
  by rewrite decide_True.
Qed.

Lemma visit_all_snoc l p st :
  visit_all (l ++ [p]) st = visit p (visit_all l st).
Proof. unfold visit_all. by rewrite foldl_app. Qed.

Lemma visit_all_app l1 l2 st :
  visit_all (l1 ++ l2) st = visit_all l2 (visit_all l1 st).
Proof. unfold visit_all. by rewrite foldl_app. Qed.

Lemma instrumented_from_nil st : instrumented_from st [] st.
Proof.
  split.
  - by rewrite app_nil_r.
  - done.
  - intros q Hq. by apply elem_of_nil in Hq.
  - intros t e Hn Hs. congruence.
  - intros c1 c2 D1 D2 t Hc. by apply elem_of_nil in Hc.
Qed.

(** A node that was not allocated at the start is, if allocated now, one
    of the trivial writes; it is a [SetLocal] of a [GetLocal] of the same
    index. *)
Lemma inst_new_shape st0 l st t e :
  instrumented_from st0 l st →
  heap st0 !! t = None → heap st !! t = Some e →
  ∃ S g, e = SetLocal S g ∧ heap st !! g = Some (GetLocal S).
Proof.
  intros I Hn Hs.
  destruct (inst_new _ _ _ I t e Hn Hs) as (c & D & Hc & Hcopy & Hct).
  destruct (inst_copy _ _ _ I c Hc Hcopy)
    as (D' & g & S & t' & H0c & H0g & Hne & H0t & Hc' & Ht').
  assert (t' = t) as -> by congruence.
  exists S, g. split; [congruence|].
  apply (inst_same _ _ _ I); [done|].
  intros [_ Hg%is_copy_true]. destruct Hg as (?&?&?&?&?&?). congruence.
Qed.

(** Whether a node that has not been visited yet is a copy does not depend
    on the instrumentation done so far. *)
Lemma is_copy_stable st0 l st p :
  instrumented_from st0 l st → p ∉ l →
  is_copy (heap st) p = is_copy (heap st0) p.
Proof.
  intros I Hp.
  destruct (heap st0 !! p) as [e|] eqn:H0p.
  - assert (heap st !! p = Some e) as Hsp.
    { apply (inst_same _ _ _ I); [done|]. by intros [? _]. }
    unfold is_copy. rewrite Hsp, H0p.
    destruct e; try done.
    destruct (heap st0 !! value) as [e'|] eqn:H0v.
    + destruct (decide (value ∈ l ∧ is_copy (heap st0) value = true))
        as [[Hv Hvc]|Hn].
      * destruct (inst_copy _ _ _ I value Hv Hvc)
          as (D' & g & S & t' & H0c & H0g & Hne & H0t & Hc' & Ht').
        rewrite Hc'. rewrite H0v in H0c. by simplify_eq.
      * by rewrite (inst_same _ _ _ I value e' H0v Hn).
    + destruct (heap st !! value) as [e'|] eqn:Hsv; [|done].
      destruct (inst_new_shape _ _ _ _ _ I H0v Hsv) as (S & g & -> & _).
      done.
  - assert (is_copy (heap st0) p = false) as ->.
    { unfold is_copy. by rewrite H0p. }
    destruct (heap st !! p) as [e|] eqn:Hsp.
    + destruct (inst_new_shape _ _ _ _ _ I H0p Hsp) as (S & g & -> & Hg).
      unfold is_copy. rewrite Hsp, Hg. apply bool_decide_eq_false. tauto.
    + unfold is_copy. by rewrite Hsp.
Qed.

Lemma instrumented_from_step st0 l st p :
  instrumented_from st0 l st → p ∉ l →
  instrumented_from st0 (l ++ [p]) (visit p st).
Proof.
  intros I Hp.
  pose proof (is_copy_stable _ _ _ _ I Hp) as Hstable.
  destruct (is_copy (heap st0) p) eqn:Hcopy.
  - (* the node is a copy: it is instrumented *)
    pose proof Hcopy as H0. apply is_copy_true in H0.
    destruct H0 as (D0 & g0 & S0 & H0p & H0g & Hne0).
    assert (heap st !! p = Some (SetLocal D0 g0)) as Hsp.
    { apply (inst_same _ _ _ I); [done|]. by intros [? _]. }
    assert (heap st !! g0 = Some (GetLocal S0)) as Hsg.
    { apply (inst_same _ _ _ I); [done|].
      intros [_ (?&?&?&?&?&?)%is_copy_true]. congruence. }
    rewrite (visit_copy p st D0 g0 S0) by done.
    set (t := alloc (heap st)).
    assert (heap st !! t = None) as Hst by apply alloc_fresh.
    assert (heap st0 !! t = None) as H0t.
    { destruct (heap st0 !! t) as [e|] eqn:E; [|done].
      destruct (decide (t ∈ l ∧ is_copy (heap st0) t = true)) as [[Ht Htc]|Hn].
      - destruct (inst_copy _ _ _ I t Ht Htc) as (?&?&?&?&?&?&?&?&?&?).
        congruence.
      - rewrite (inst_same _ _ _ I t e E Hn) in Hst. done. }
    assert (t ≠ p) as Htp by congruence.
    split; simpl.
    + rewrite (inst_copies _ _ _ I), filter_app, app_assoc. f_equal.
      rewrite filter_cons_True by done. done.
    + intros q e H0q Hn.
      assert (q ≠ p) as Hqp.
      { intros ->. apply Hn. split; [|done]. apply elem_of_app. right.
        by apply list_elem_of_singleton. }
      assert (q ≠ t) as Hqt by congruence.
      rewrite lookup_insert_ne, lookup_insert_ne by done.
      apply (inst_same _ _ _ I); [done|].
      intros [Hq Hqc]. apply Hn. split; [|done]. apply elem_of_app. by left.
    + intros q [Hq|Hq%list_elem_of_singleton]%elem_of_app Hqc.
      * destruct (inst_copy _ _ _ I q Hq Hqc)
          as (D' & g' & S' & t' & H0c & H0g' & Hne' & H0t' & Hc' & Ht').
        exists D', g', S', t'. repeat split; try done.
        -- rewrite lookup_insert_ne, lookup_insert_ne; [done|congruence|].
           intros ->. done.
        -- rewrite lookup_insert_ne, lookup_insert_ne; congruence.
      * subst q. exists D0, g0, S0, t. repeat split; try done.
        -- by rewrite lookup_insert_eq.
        -- rewrite lookup_insert_ne by done. by rewrite lookup_insert_eq.
    + intros t' e H0t' Hlk.
      destruct (decide (t' = t)) as [->|Hne'].
      * exists p, D0. split; [|split; [done|]].
        -- apply elem_of_app. right. by apply list_elem_of_singleton.
        -- by rewrite lookup_insert_eq.
      * assert (t' ≠ p) by congruence.
        rewrite lookup_insert_ne, lookup_insert_ne in Hlk by done.
        destruct (inst_new _ _ _ I t' e H0t' Hlk) as (c & D' & Hc & Hcc & Hct).
        exists c, D'. split; [|split; [done|]].
        -- apply elem_of_app. by left.
        -- rewrite lookup_insert_ne, lookup_insert_ne; [done|congruence|].
           intros ->. done.
    + assert (∀ c D' t', c ∈ l → is_copy (heap st0) c = true →
                <[p:=SetLocal D0 t]> (<[t:=SetLocal S0 g0]> (heap st)) !! c
                  = Some (SetLocal D' t') →
                heap st !! c = Some (SetLocal D' t') ∧ t' ≠ t) as Hold.
      { intros c D' t' Hc Hcc Hlk.
        destruct (inst_copy _ _ _ I c Hc Hcc)
          as (D1 & g1 & S1 & t1 & H0c & H0g1 & Hne1 & H0t1 & Hc1 & Ht1).
        rewrite lookup_insert_ne, lookup_insert_ne in Hlk;
          [|congruence|intros ->; done].
        split; [done|]. congruence. }
      intros c1 c2 D1 D2 t' [Hc1|Hc1%list_elem_of_singleton]%elem_of_app
        [Hc2|Hc2%list_elem_of_singleton]%elem_of_app Hcc1 Hcc2 Hl1 Hl2.
      * destruct (Hold _ _ _ Hc1 Hcc1 Hl1) as [Hl1' _].
        destruct (Hold _ _ _ Hc2 Hcc2 Hl2) as [Hl2' _].
        by apply (inst_inj _ _ _ I c1 c2 D1 D2 t').
      * subst c2. rewrite lookup_insert_eq in Hl2. simplify_eq.
        by destruct (Hold _ _ _ Hc1 Hcc1 Hl1).
      * subst c1. rewrite lookup_insert_eq in Hl1. simplify_eq.
        by destruct (Hold _ _ _ Hc2 Hcc2 Hl2).
      * congruence.
  - (* the node is not a copy: nothing happens *)
    rewrite visit_not_copy by done.
    assert (∀ q, q ∈ l ++ [p] → is_copy (heap st0) q = true → q ∈ l) as Hin.
    { intros q [Hq|Hq%list_elem_of_singleton]%elem_of_app Hqc; [done|].
      congruence. }
    split.
    + rewrite (inst_copies _ _ _ I), filter_app. f_equal.
      rewrite filter_cons_False, filter_nil, app_nil_r; [done|congruence].
    + intros q e H0q Hn. apply (inst_same _ _ _ I); [done|].
      intros [Hq Hqc]. apply Hn. split; [|done]. apply elem_of_app. by left.
    + intros q Hq Hqc. apply (inst_copy _ _ _ I); [|done]. by apply Hin.
    + intros t e H0t Hlk.
      destruct (inst_new _ _ _ I t e H0t Hlk) as (c & D' & Hc & Hcc & Hct).
      exists c, D'. split; [|done]. apply elem_of_app. by left.
    + intros c1 c2 D1 D2 t Hc1 Hc2 Hcc1 Hcc2.
      apply (inst_inj _ _ _ I); auto.
Qed.

Lemma visit_all_instrumented st0 l :
  NoDup l → instrumented_from st0 l (visit_all l st0).
Proof.
  induction l as [|p l IH] using rev_ind; intros Hnd.
  - apply instrumented_from_nil.
  - apply NoDup_app in Hnd as (Hl & Hdisj & _).
    rewrite visit_all_snoc. apply instrumented_from_step; [by apply IH|].
    intros Hp. apply (Hdisj p Hp). by apply list_elem_of_singleton.
Qed.

Lemma elem_of_concat (ls : list (list ptr)) q :
  q ∈ concat ls → ∃ lq, q ∈ lq ∧ lq ∈ ls.
Proof.
  intros Hq%list_elem_of_In%in_concat. destruct Hq as (lq & H1 & H2).
  exists lq. split; by apply list_elem_of_In.
Qed.

(** Every node of the traversal is allocated. *)
Lemma postorder_allocated fuel h p l :
  postorder fuel h p = Some l → ∀ q, q ∈ l → is_Some (h !! q).
Proof.
  revert p l. induction fuel as [|fuel IH]; intros p l; simpl; [done|].
  destruct (h !! p) as [e|] eqn:Hp; [|done].
  destruct (mapM (postorder fuel h) (children e)) as [ls|] eqn:Hm; [|done].
  intros [= <-] q [Hq|Hq%list_elem_of_singleton]%elem_of_app.
  - apply mapM_Some in Hm.
    apply elem_of_concat in Hq as (lc & Hq & Hlc).
    apply list_elem_of_lookup in Hlc as [i Hi].
    destruct (Forall2_lookup_r _ _ _ _ _ Hm Hi) as (c & _ & Hc).
    by apply (IH c lc).
  - subst q. by rewrite Hp.
Qed.

Lemma walk_children fuel h0 :
  (∀ p l st,
     postorder fuel h0 p = Some l → NoDup l →
     (∀ q, q ∈ l → heap st !! q = h0 !! q) →
     walk fuel p st = Some (visit_all l st)) →
  ∀ cs ls st,
    Forall2 (λ c lc, postorder fuel h0 c = Some lc) cs ls →
    NoDup (concat ls) →
    (∀ q, q ∈ concat ls → heap st !! q = h0 !! q) →
    foldM_opt (walk fuel) cs st = Some (visit_all (concat ls) st).
Proof.
  intros IH cs ls st HF. revert st.
  induction HF as [|c lc cs ls Hc HF IHcs]; intros st Hnd Hagree; simpl.
  - done.
  - simpl in Hnd. apply NoDup_app in Hnd as (Hlc & Hdisj & Hrest).
    rewrite (IH c lc st Hc Hlc).
    2:{ intros q Hq. apply Hagree. simpl. apply elem_of_app. by left. }
    rewrite visit_all_app. apply IHcs; [done|].
    intros q Hq.
    assert (is_Some (h0 !! q)) as [e He].
    { apply elem_of_concat in Hq as (lq & Hq & Hlq).
      apply list_elem_of_lookup in Hlq as [i Hi].
      destruct (Forall2_lookup_r _ _ _ _ _ HF Hi) as (cq & _ & Hcq).
      by apply (postorder_allocated fuel h0 cq lq). }
    rewrite He.
    apply (inst_same st lc _ (visit_all_instrumented st lc Hlc)).
    + rewrite Hagree; [done|]. simpl. apply elem_of_app. by right.
    + intros [Hqlc _]. by apply (Hdisj q).
Qed.

(** On a tree whose nodes are as in [h0], the walk visits the nodes in
    post-order, and it has fuel enough whenever the traversal has. *)
Lemma walk_postorder fuel h0 p l st :
  postorder fuel h0 p = Some l → NoDup l →
  (∀ q, q ∈ l → heap st !! q = h0 !! q) →
  walk fuel p st = Some (visit_all l st).
Proof.
  revert p l st. induction fuel as [|fuel IH]; intros p l st; simpl; [done|].
  destruct (h0 !! p) as [e|] eqn:Hp; [|done].
  destruct (mapM (postorder fuel h0) (children e)) as [ls|] eqn:Hm; [|done].
  intros [= <-] Hnd Hagree.
  rewrite Hagree, Hp.
  2:{ apply elem_of_app. right. by apply list_elem_of_singleton. }
  apply NoDup_app in Hnd as (Hnd & _ & _).
  apply mapM_Some in Hm.
  rewrite (walk_children fuel h0 IH (children e) ls st Hm Hnd).
  2:{ intros q Hq. apply Hagree. apply elem_of_app. by left. }
  by rewrite visit_all_snoc.
Qed.

(** The state in which the walk leaves a tree. *)
Lemma walk_tree fuel h0 body l :
  postorder fuel h0 body = Some l → NoDup l →
  walk fuel body (mkState h0 []) = Some (visit_all l (mkState h0 [])) ∧
  instrumented_from (mkState h0 []) l (visit_all l (mkState h0 [])).
Proof.
  intros Hpo Hnd. split.
  - by apply (walk_postorder fuel h0).
  - by apply visit_all_instrumented.
Qed.

Lemma is_tree_postorder fuel h0 body :
  is_tree fuel h0 body = true →
  ∃ l, postorder fuel h0 body = Some l ∧ NoDup l.
Proof.
  unfold is_tree. destruct (postorder fuel h0 body) as [l|]; [|done].
  intros Hnd%bool_decide_eq_true. eauto.
Qed.

End Walker.

(** * The optimizer *)

Section Optimizer.

Implicit Types (h : gmap ptr Expression) (p q r c t g : ptr).

Lemma eligible_true G t :
  eligible G t = true ↔ ∀ r, r ∈ influences G t → size (getSets G r) = 1.
Proof.
  unfold eligible. rewrite forallb_forall. split.
  - intros H r Hr. eapply bool_decide_eq_true_1, H, list_elem_of_In.
    by apply elem_of_elements.
  - intros H r Hr. apply bool_decide_eq_true_2, H.
    by apply elem_of_elements, list_elem_of_In.
Qed.

Lemma forallb_false_witness {A} (f : A → bool) (l : list A) :
  forallb f l = false → ∃ x, In x l ∧ f x = false.
Proof.
  induction l as [|a l IH]; simpl; [done|].
  destruct (f a) eqn:Hfa; simpl.
  - intros (x & Hx & Hfx)%IH. eauto.
  - eauto.
Qed.

Lemma eligible_false G t :
  eligible G t = false ↔ ∃ r, r ∈ influences G t ∧ size (getSets G r) ≠ 1.
Proof.
  split.
  - intros H. unfold eligible in H.
    destruct (forallb_false_witness _ _ H) as (r & Hr & Hb).
    exists r. split.
    + by apply elem_of_elements, list_elem_of_In.
    + by apply bool_decide_eq_false in Hb.
  - intros (r & Hr & Hs). destruct (eligible G t) eqn:E; [|done].
    rewrite eligible_true in E. by specialize (E r Hr).
Qed.

Lemma graph_contract_spec h G w r :
  graph_contract h G = true → r ∈ influences G w →
  (∃ i v, h !! w = Some (SetLocal i v) ∧ h !! r = Some (GetLocal i)) ∧
  Some w ∈ getSets G r.
Proof.
  unfold graph_contract, influences. rewrite forallb_forall. intros H Hr.
  destruct (setInfluences G !! w) as [rs|] eqn:Hw; simpl in Hr;
    [|by apply not_elem_of_empty in Hr].
  specialize (H (w, rs)). simpl in H.
  rewrite forallb_forall in H.
  assert (influence_ok h G w r = true) as Hok.
  { apply H.
    - apply list_elem_of_In. by apply elem_of_map_to_list.
    - apply list_elem_of_In. by apply elem_of_elements. }
  unfold influence_ok in Hok.
  destruct (h !! w) as [[]|]; try done.
  destruct (h !! r) as [[]|]; try done.
  apply andb_true_iff in Hok as [H1%bool_decide_eq_true H2%bool_decide_eq_true].
  subst. eauto.
Qed.

(** A read with a single reaching write is influenced by that write
    only. *)
Lemma single_influencer h G t1 t2 r :
  graph_contract h G = true →
  r ∈ influences G t1 → r ∈ influences G t2 →
  size (getSets G r) = 1 → t1 = t2.
Proof.
  intros HG H1 H2 Hsz.
  destruct (graph_contract_spec h G t1 r HG H1) as [_ Hin1].
  destruct (graph_contract_spec h G t2 r HG H2) as [_ Hin2].
  pose proof (size_singleton_inv _ _ _ Hsz Hin1 Hin2). congruence.
Qed.

Lemma single_head (X : gset (option ptr)) x :
  size X = 1 → x ∈ X → head (elements X) = Some x.
Proof.
  intros Hsz Hx. apply size_1_elem_of in Hsz as [y Hy].
  apply leibniz_equiv in Hy. subst X.
  apply elem_of_singleton in Hx. subst y.
  by rewrite elements_singleton.
Qed.

(** The first loop, when every check passes. *)
Lemma check_loop G h t S g (l : list ptr) (b : bool) :
  h !! t = Some (SetLocal S g) →
  (∀ r, r ∈ l →
     h !! r = Some (GetLocal S) ∧
     (size (getSets G r) = 1 →
      head (elements (getSets G r)) = Some (Some t))) →
  foldM_out (checkInfluenced G h t) l b =
    Ok (b && forallb (λ r, bool_decide (size (getSets G r) = 1)) l).
Proof.
  intros Ht. revert b. induction l as [|r l IH]; intros b Hl; simpl.
  - by rewrite andb_true_r.
  - destruct (Hl r) as [Hr Hhead]; [by left|].
    unfold checkInfluenced at 1. rewrite Hr, Ht. rewrite decide_True by done.
    destruct (decide (size (getSets G r) = 1)) as [Hsz|Hsz]; simpl.
    + rewrite decide_True by auto. simpl.
      rewrite IH by (intros r' Hr'; apply Hl; by right).
      by rewrite bool_decide_eq_true_2.
    + rewrite IH by (intros r' Hr'; apply Hl; by right).
      rewrite (bool_decide_eq_false_2 _ Hsz). simpl.
      by rewrite andb_false_r.
Qed.

(** The second loop. *)
Lemma redirect_all c D v (l : list ptr) h q :
  h !! c = Some (SetLocal D v) →
  (∀ r, r ∈ l → ∃ i, h !! r = Some (GetLocal i)) →
  foldl (redirect c) h l !! q =
    if decide (q ∈ l) then Some (GetLocal D) else h !! q.
Proof.
  revert h. induction l as [|r l IH]; intros h Hc Hl; simpl.
  - done.
  - destruct (Hl r) as [i Hr]; [by left|].
    assert (r ≠ c) as Hrc by congruence.
    assert (redirect c h r = alter (setIndex D) r h) as Hred.
    { unfold redirect. by rewrite Hc. }
    rewrite Hred. rewrite IH.
    + destruct (decide (q ∈ l)) as [Hq|Hq].
      * rewrite decide_True; [done|]. by right.
      * destruct (decide (q = r)) as [->|Hqr].
        -- rewrite decide_True by (by left).
           rewrite lookup_alter_eq, Hr. done.
        -- rewrite decide_False.
           ++ by rewrite lookup_alter_ne.
           ++ intros [?|?]%elem_of_cons; done.
    + by rewrite lookup_alter_ne.
    + intros r' Hr'. destruct (decide (r' = r)) as [->|Hne].
      * exists D. by rewrite lookup_alter_eq, Hr.
      * rewrite lookup_alter_ne by done. apply Hl. by right.
Qed.

(** One iteration of the loop over the copies, when every check passes. *)
Lemma optimizeCopy_ok G h c D t S g :
  h !! c = Some (SetLocal D t) →
  h !! t = Some (SetLocal S g) →
  (∀ r, r ∈ influences G t →
     h !! r = Some (GetLocal S) ∧
     (size (getSets G r) = 1 →
      head (elements (getSets G r)) = Some (Some t))) →
  optimizeCopy G h c =
    Ok (alter (setValue g) c
          (if eligible G t
           then foldl (redirect c) h (elements (influences G t))
           else h)).
Proof.
  intros Hc Ht Hinfl. unfold optimizeCopy. rewrite Hc, Ht.
  rewrite (check_loop G h t S g) by
    (try done; intros r Hr%elem_of_elements; by apply Hinfl).
  simpl. fold (eligible G t).
  assert ((if eligible G t
           then foldl (redirect c) h (elements (influences G t))
           else h) !! t = Some (SetLocal S g)) as ->; [|done].
  destruct (eligible G t); [|done].
  rewrite (redirect_all c D t) by
    (try done; intros r Hr%elem_of_elements;
     destruct (Hinfl r Hr) as [? _]; eauto).
  rewrite decide_False; [done|].
  intros Hin%elem_of_elements. destruct (Hinfl t Hin) as [? _]. congruence.
Qed.

(** The same, with the assignments of the second loop made explicit. *)
Lemma optimizeCopy_assigned G h c D t S g :
  h !! c = Some (SetLocal D t) →
  h !! t = Some (SetLocal S g) →
  (∀ r, r ∈ influences G t →
     h !! r = Some (GetLocal S) ∧
     (size (getSets G r) = 1 →
      head (elements (getSets G r)) = Some (Some t))) →
  optimizeCopy G h c =
    Ok (alter (setValue g) c (foldl (redirect c) h (assigned_by G h c))).
Proof.
  intros Hc Ht Hinfl. rewrite (optimizeCopy_ok G h c D t S g) by done.
  unfold assigned_by. rewrite Hc. by destruct (eligible G t).
Qed.

End Optimizer.

Section OptimizerLoop.

Variables (h1 : gmap ptr Expression) (G : LocalGraph) (cs : list ptr).
Hypothesis Hwf : wf_copies h1 cs.
Hypothesis HG : graph_contract h1 G = true.

Implicit Types (h : gmap ptr Expression) (p q r c t g : ptr).

Lemma optimized_upto_nil : optimized_upto h1 G [] h1.
Proof.
  split; try done.
  - intros c D t S g Hc. by apply elem_of_nil in Hc.
  - eauto.
  - intros r i c D t _ Hc. by apply elem_of_nil in Hc.
Qed.

(** The reads a trivial write influences are reads of its index in the
    instrumented heap. *)
Lemma influenced_is_get t S g r :
  h1 !! t = Some (SetLocal S g) → r ∈ influences G t →
  h1 !! r = Some (GetLocal S).
Proof.
  intros Ht Hr.
  destruct (graph_contract_spec h1 G t r HG Hr) as [(i & v & Hw & Hg) _].
  congruence.
Qed.

(** Two recorded copies that both merge a read are the same copy. *)
Lemma merger_unique c1 c2 D1 D2 t1 t2 r :
  c1 ∈ cs → c2 ∈ cs →
  h1 !! c1 = Some (SetLocal D1 t1) → h1 !! c2 = Some (SetLocal D2 t2) →
  r ∈ influences G t1 → r ∈ influences G t2 →
  size (getSets G r) = 1 →
  c1 = c2.
Proof.
  intros Hc1 Hc2 Hl1 Hl2 Hr1 Hr2 Hsz.
  assert (t1 = t2) as -> by by eapply single_influencer.
  by eapply (wfc_inj _ _ Hwf).
Qed.

Lemma optimizeCopy_step done c h :
  c ∈ cs → c ∉ done → (∀ c', c' ∈ done → c' ∈ cs) →
  optimized_upto h1 G done h →
  ∃ h', optimizeCopy G h c = Ok h' ∧ optimized_upto h1 G (done ++ [c]) h'.
Proof.
  intros Hc Hnd Hsub I.
  destruct (wfc_shape _ _ Hwf c Hc) as (D & t & S & g & H1c & H1t & H1g & Hne).
  assert (t ∉ cs) as Htcs by by eapply (wfc_trivial _ _ Hwf).
  assert (h !! c = Some (SetLocal D t)) as Hhc
    by by apply (opt_other _ _ _ _ I).
  assert (h !! t = Some (SetLocal S g)) as Hht.
  { apply (opt_other _ _ _ _ I); [done..|]. intros Ht. by apply Htcs, Hsub. }
  assert (∀ r, r ∈ influences G t → h !! r = Some (GetLocal S)) as Hreads.
  { intros r Hr. apply (opt_kept _ _ _ _ I).
    - by eapply influenced_is_get.
    - intros c' D' t' Hc' H1c' Hel Hr'.
      rewrite eligible_true in Hel.
      assert (c' = c) as ->; [|done].
      eapply merger_unique; eauto. }
  eexists. split.
  { apply (optimizeCopy_ok G h c D t S g); [done..|].
    intros r Hr. split; [by apply Hreads|].
    intros Hsz. apply single_head; [done|].
    by destruct (graph_contract_spec h1 G t r HG Hr). }
  set (h2 := if eligible G t
             then foldl (redirect c) h (elements (influences G t)) else h).
  assert (∀ q, h2 !! q =
            if decide (eligible G t = true ∧ q ∈ influences G t)
            then Some (GetLocal D) else h !! q) as Hh2.
  { intros q. unfold h2. destruct (eligible G t) eqn:E.
    - rewrite (redirect_all c D t) by
        (try done; intros r Hr%elem_of_elements; rewrite Hreads; eauto).
      destruct (decide (q ∈ elements (influences G t))) as [Hq|Hq].
      + rewrite decide_True; [done|]. split; [done|]. by apply elem_of_elements.
      + rewrite decide_False; [done|]. intros [_ ?]. by apply Hq, elem_of_elements.
    - rewrite decide_False; [done|]. by intros [? _]. }
  assert (∀ q e, h1 !! q = Some e → isGetLocal e = false →
                 h2 !! q = h !! q) as Hh2other.
  { intros q e H1q Hng. rewrite Hh2. rewrite decide_False; [done|].
    intros [_ Hq]. rewrite (influenced_is_get t S g q H1t Hq) in H1q.
    by simplify_eq. }
  assert (∀ r i, h1 !! r = Some (GetLocal i) → r ≠ c) as Hgetc by congruence.
  split.
  - intros q e H1q Hng Hq.
    assert (q ≠ c) as Hqc.
    { intros ->. apply Hq, elem_of_app. right. by apply list_elem_of_singleton. }
    rewrite lookup_alter_ne by done. rewrite (Hh2other q e) by done.
    apply (opt_other _ _ _ _ I); [done..|].
    intros Hq'. apply Hq, elem_of_app. by left.
  - intros c' D' t' S' g' [Hc'|Hc'%list_elem_of_singleton]%elem_of_app H1c' H1t'.
    + assert (c' ≠ c) by congruence.
      rewrite lookup_alter_ne by done. rewrite (Hh2other c' _ H1c') by done.
      by apply (opt_clean _ _ _ _ I c' D' t' S' g').
    + subst c'. simplify_eq. rewrite lookup_alter_eq.
      rewrite (Hh2other c _ H1c), Hhc by done. done.
  - intros r i H1r. rewrite lookup_alter_ne by (symmetry; by eapply Hgetc).
    rewrite Hh2.
    destruct (decide (eligible G t = true ∧ r ∈ influences G t)); [eauto|].
    by apply (opt_get _ _ _ _ I r i).
  - intros r i c' D' t' H1r [Hc'|Hc'%list_elem_of_singleton]%elem_of_app
      H1c' Hel Hr.
    + rewrite lookup_alter_ne by (symmetry; by eapply Hgetc).
      rewrite Hh2. rewrite decide_False.
      * by apply (opt_merged _ _ _ _ I r i c' D' t').
      * intros [Hel' Hr'].
        rewrite eligible_true in Hel.
        assert (c' = c) as ->; [|done].
        eapply merger_unique; eauto.
    + subst c'. simplify_eq.
      rewrite lookup_alter_ne by (symmetry; by eapply Hgetc).
      rewrite Hh2. by rewrite decide_True.
  - intros r i H1r Hnone.
    rewrite lookup_alter_ne by (symmetry; by eapply Hgetc).
    rewrite Hh2. rewrite decide_False.
    + apply (opt_kept _ _ _ _ I); [done|].
      intros c' D' t' Hc'. apply Hnone, elem_of_app. by left.
    + intros [Hel Hr]. apply (Hnone c D t); [|done..].
      apply elem_of_app. right. by apply list_elem_of_singleton.
  - intros q H1q.
    assert (q ≠ c) by congruence.
    rewrite lookup_alter_ne by done. rewrite Hh2.
    rewrite decide_False; [by apply (opt_none _ _ _ _ I)|].
    intros [_ Hq]. rewrite (influenced_is_get t S g q H1t Hq) in H1q. done.
Qed.

Lemma optimizeLoop_from done todo h :
  done ++ todo = cs →
  optimized_upto h1 G done h →
  ∃ h', foldM_out (optimizeCopy G) todo h = Ok h' ∧
        optimized_upto h1 G cs h'.
Proof.
  revert done h. induction todo as [|c todo IH]; intros done h Heq I; simpl.
  - rewrite app_nil_r in Heq. subst. eauto.
  - assert (NoDup (done ++ c :: todo)) as Hnd.
    { rewrite Heq. apply (wfc_nodup _ _ Hwf). }
    apply NoDup_app in Hnd as (_ & Hdisj & _).
    destruct (optimizeCopy_step done c h) as (h' & Hstep & I'); [..|done|].
    + rewrite <- Heq. apply elem_of_app. right. by left.
    + intros Hc. apply (Hdisj c Hc). by left.
    + intros c' Hc'. rewrite <- Heq. apply elem_of_app. by left.
    + rewrite Hstep. simpl. apply (IH (done ++ [c])); [|done].
      by rewrite <- app_assoc.
Qed.

(** The optimizer completes, and leaves the heap described by
    [optimized_upto] for the whole list. *)
Lemma optimizeLoop_spec :
  ∃ h', optimizeLoop G cs h1 = Ok h' ∧ optimized_upto h1 G cs h'.
Proof. apply (optimizeLoop_from [] cs h1); [done|]. apply optimized_upto_nil. Qed.

End OptimizerLoop.

(** * The pass as a whole *)

Section Pass.

Implicit Types (h : gmap ptr Expression) (st : State) (p q r c t g : ptr).

(** A read of the instrumented heap is a read of the heap the walk started
    from: the walk allocates and rewrites writes only. *)
Lemma instrumented_get_back st0 l st r i :
  instrumented_from st0 l st →
  heap st !! r = Some (GetLocal i) → heap st0 !! r = Some (GetLocal i).
Proof.
  intros I Hr.
  destruct (heap st0 !! r) as [e|] eqn:H0r.
  - destruct (decide (r ∈ l ∧ is_copy (heap st0) r = true)) as [[Hl Hc]|Hn].
    + destruct (inst_copy _ _ _ I r Hl Hc) as (?&?&?&?&?&?&?&?&?&?).
      congruence.
    + rewrite (inst_same _ _ _ I r e H0r Hn) in Hr. done.
  - destruct (inst_new_shape _ _ _ _ _ I H0r Hr) as (?&?&?&?). done.
Qed.

Lemma instrumented_get st0 l st r i :
  instrumented_from st0 l st →
  heap st0 !! r = Some (GetLocal i) → heap st !! r = Some (GetLocal i).
Proof.
  intros I Hr. apply (inst_same _ _ _ I); [done|].
  intros [_ (?&?&?&?&?&?)%is_copy_true]. congruence.
Qed.

(** The walk hands well-formed copies to the optimizer. *)
Lemma instrumented_wf_copies st0 l st :
  copies st0 = [] → NoDup l →
  instrumented_from st0 l st → wf_copies (heap st) (copies st).
Proof.
  intros Hnil Hnd I.
  assert (∀ c, c ∈ copies st ↔ c ∈ l ∧ is_copy (heap st0) c = true) as Hin.
  { intros c. rewrite (inst_copies _ _ _ I), Hnil. simpl.
    rewrite list_elem_of_filter. tauto. }
  split.
  - rewrite (inst_copies _ _ _ I), Hnil. simpl. by apply NoDup_filter.
  - intros c [Hl Hc]%Hin.
    destruct (inst_copy _ _ _ I c Hl Hc)
      as (D & g & S & t & H0c & H0g & Hne & H0t & Hc' & Ht').
    exists D, t, S, g. repeat split; try done.
    by apply (instrumented_get _ _ _ _ _ I).
  - intros c1 c2 D1 D2 t [Hl1 Hc1]%Hin [Hl2 Hc2]%Hin.
    by apply (inst_inj _ _ _ I).
  - intros c D t [Hl Hc]%Hin Hlk [Hlt Hct]%Hin.
    destruct (inst_copy _ _ _ I c Hl Hc)
      as (D' & g & S & t' & H0c & H0g & Hne & H0t & Hc' & Ht').
    assert (t' = t) as -> by congruence.
    apply is_copy_true in Hct as (?&?&?&?&?&?). congruence.
Qed.

Lemma runPass_unfold LG fuel body h0 st :
  walk fuel body (mkState h0 []) = Some st →
  runPass LG fuel body h0 =
    optimizeLoop (LG (heap st) body) (copies st) (heap st).
Proof. intros Hw. unfold runPass, doWalkFunction. by rewrite Hw. Qed.

Lemma walk_is_tree fuel h0 body st :
  is_tree fuel h0 body = true →
  walk fuel body (mkState h0 []) = Some st →
  ∃ l, postorder fuel h0 body = Some l ∧ NoDup l ∧
       instrumented_from (mkState h0 []) l st.
Proof.
  intros (l & Hpo & Hnd)%is_tree_postorder Hw.
  destruct (walk_tree fuel h0 body l Hpo Hnd) as [Hw' I].
  rewrite Hw in Hw'. injection Hw' as ->. eauto.
Qed.

(** On a tree, the walk has fuel enough as soon as the traversal has. *)
Lemma walk_total fuel h0 body :
  is_tree fuel h0 body = true →
  ∃ st, walk fuel body (mkState h0 []) = Some st.
Proof.
  intros (l & Hpo & Hnd)%is_tree_postorder.
  destruct (walk_tree fuel h0 body l Hpo Hnd) as [Hw _]. eauto.
Qed.

(** The pass on a tree, under the contract of the local graph: it runs to
    completion, and the final heap is described by [optimized_upto]. *)
Lemma pass_spec LG fuel body h0 st :
  is_tree fuel h0 body = true →
  walk fuel body (mkState h0 []) = Some st →
  graph_contract (heap st) (LG (heap st) body) = true →
  ∃ h', runPass LG fuel body h0 = Ok h' ∧
        optimized_upto (heap st) (LG (heap st) body) (copies st) h'.
Proof.
  intros Ht Hw HG.
  destruct (walk_is_tree _ _ _ _ Ht Hw) as (l & Hpo & Hnd & I).
  rewrite (runPass_unfold LG fuel body h0 st Hw).
  apply optimizeLoop_spec; [|done].
  by apply (instrumented_wf_copies (mkState h0 []) l).
Qed.

End Pass.

Section PassFacts.

Implicit Types (h : gmap ptr Expression) (st : State) (p q r c t g : ptr).

Lemma wf_copies_prefix h done todo :
  wf_copies h (done ++ todo) → wf_copies h done.
Proof.
  intros W.
  assert (∀ c, c ∈ done → c ∈ done ++ todo) as Hsub.
  { intros c Hc. apply elem_of_app. by left. }
  split.
  - pose proof (wfc_nodup _ _ W) as Hnd. by apply NoDup_app in Hnd as (? & _).
  - intros c Hc. apply (wfc_shape _ _ W). auto.
  - intros c1 c2 D1 D2 t Hc1 Hc2. apply (wfc_inj _ _ W); auto.
  - intros c D t Hc Hlk Ht.
    apply (wfc_trivial _ _ W c D t); auto.
Qed.

(** The loop over a prefix of the copies completes as well, and its heap
    is described by [optimized_upto] for that prefix. *)
Lemma optimizeLoop_prefix h1 G done todo :
  wf_copies h1 (done ++ todo) → graph_contract h1 G = true →
  ∃ h, optimizeLoop G done h1 = Ok h ∧ optimized_upto h1 G done h.
Proof.
  intros W HG. apply optimizeLoop_spec; [|done]. by eapply wf_copies_prefix.
Qed.

(** Everything the walk and the optimizer establish, in one place. *)
Lemma pass_facts LG fuel body h0 st :
  is_tree fuel h0 body = true →
  walk fuel body (mkState h0 []) = Some st →
  graph_contract (heap st) (LG (heap st) body) = true →
  ∃ l h',
    postorder fuel h0 body = Some l ∧ NoDup l ∧
    instrumented_from (mkState h0 []) l st ∧
    wf_copies (heap st) (copies st) ∧
    runPass LG fuel body h0 = Ok h' ∧
    optimized_upto (heap st) (LG (heap st) body) (copies st) h'.
Proof.
  intros Ht Hw HG.
  destruct (walk_is_tree _ _ _ _ Ht Hw) as (l & Hpo & Hnd & I).
  destruct (pass_spec LG fuel body h0 st Ht Hw HG) as (h' & Hrun & O).
  exists l, h'. repeat split; try done.
  all: try apply I. all: try apply O.
  all: by apply (instrumented_wf_copies (mkState h0 []) l).
Qed.

(** A recorded copy whose influenced reads are not all singly reached
    merges no read at all: no other recorded copy can merge one of its
    reads either. *)
Lemma skipped_reads_kept h1 G cs h' c D t r :
  wf_copies h1 cs → graph_contract h1 G = true →
  optimized_upto h1 G cs h' →
  c ∈ cs → h1 !! c = Some (SetLocal D t) →
  eligible G t = false → r ∈ influences G t →
  h' !! r = h1 !! r.
Proof.
  intros W HG O Hc H1c Hel Hr.
  destruct (wfc_shape _ _ W c Hc) as (D' & t' & S & g & H1c' & H1t & _).
  simplify_eq.
  rewrite (influenced_is_get h1 G HG t S g r H1t Hr).
  apply (opt_kept _ _ _ _ O).
  - by apply (influenced_is_get h1 G HG t S g r).
  - intros c' D' t' Hc' H1c' Hel' Hr'.
    assert (c' = c) as ->.
    { rewrite eligible_true in Hel'.
      eapply (merger_unique h1 G cs W HG); eauto. }
    simplify_eq. congruence.
Qed.

End PassFacts.

Section CopyReady.

Variables (h1 : gmap ptr Expression) (G : LocalGraph) (cs : list ptr).
Hypothesis Hwf : wf_copies h1 cs.
Hypothesis HG : graph_contract h1 G = true.

(** When the loop reaches a copy, the copy and its trivial write are still
    as the walk left them, and so is every read the trivial write
    influences: no earlier copy has renamed one of them. *)
Lemma copy_ready (done : list ptr) (c : ptr) (h : gmap ptr Expression) :
  c ∈ cs → c ∉ done → (∀ c', c' ∈ done → c' ∈ cs) →
  optimized_upto h1 G done h →
  ∃ D t S g,
    h !! c = Some (SetLocal D t) ∧
    h !! t = Some (SetLocal S g) ∧
    ∀ r, r ∈ influences G t →
      h !! r = Some (GetLocal S) ∧
      (size (getSets G r) = 1 →
       head (elements (getSets G r)) = Some (Some t)).
Proof.
  intros Hc Hnd Hsub I.
  destruct (wfc_shape _ _ Hwf c Hc) as (D & t & S & g & H1c & H1t & H1g & Hne).
  assert (t ∉ cs) as Htcs by by eapply (wfc_trivial _ _ Hwf).
  exists D, t, S, g. split; [|split].
  - by apply (opt_other _ _ _ _ I).
  - apply (opt_other _ _ _ _ I); [done..|]. intros Ht. by apply Htcs, Hsub.
  - intros r Hr. split.
    + apply (opt_kept _ _ _ _ I).
      * by apply (influenced_is_get h1 G HG t S g r).
      * intros c' D' t' Hc' H1c' Hel Hr'.
        rewrite eligible_true in Hel.
        assert (c' = c) as ->; [|done].
        eapply (merger_unique h1 G cs Hwf HG); eauto.
    + intros Hsz. apply single_head; [done|].
      by destruct (graph_contract_spec h1 G t r HG Hr).
Qed.

End CopyReady.

Section Replay.

Variables (h1 : gmap ptr Expression) (G : LocalGraph) (cs : list ptr).
Hypothesis Hwf : wf_copies h1 cs.
Hypothesis HG : graph_contract h1 G = true.

Lemma optimizeLoop_replay_from (done todo : list ptr)
    (h : gmap ptr Expression) :
  done ++ todo = cs →
  optimized_upto h1 G done h →
  foldM_out (optimizeCopy G) todo h = Ok (foldl (replay G h1) h todo).
Proof.
  revert done h. induction todo as [|c todo IH]; intros done h Heq I; simpl.
  - done.
  - assert (NoDup (done ++ c :: todo)) as Hnd.
    { rewrite Heq. apply (wfc_nodup _ _ Hwf). }
    apply NoDup_app in Hnd as (_ & Hdisj & _).
    assert (c ∈ cs) as Hc.
    { rewrite <- Heq. apply elem_of_app. right. by left. }
    assert (c ∉ done) as Hcd.
    { intros Hcd. apply (Hdisj c Hcd). by left. }
    assert (∀ c', c' ∈ done → c' ∈ cs) as Hsub.
    { intros c' Hc'. rewrite <- Heq. apply elem_of_app. by left. }
    destruct (optimizeCopy_step h1 G cs Hwf HG done c h Hc Hcd Hsub I)
      as (h' & Hstep & I').
    destruct (copy_ready h1 G cs Hwf HG done c h Hc Hcd Hsub I)
      as (D & t & S & g & Hhc & Hht & Hready).
    destruct (wfc_shape _ _ Hwf c Hc)
      as (D' & t' & S' & g' & H1c & H1t & _ & _).
    assert (h !! c = Some (SetLocal D' t')) as Hhc'
      by by apply (opt_other _ _ _ _ I).
    rewrite Hhc in Hhc'. injection Hhc' as <- <-.
    assert (t ∉ cs) as Htcs by by eapply (wfc_trivial _ _ Hwf).
    assert (h !! t = Some (SetLocal S' g')) as Hht'.
    { apply (opt_other _ _ _ _ I); [done..|]. intros Ht. by apply Htcs, Hsub. }
    rewrite Hht in Hht'. injection Hht' as <- <-.
    assert (replay G h1 h c = h') as Hrep.
    { rewrite (optimizeCopy_assigned G h c D t S g Hhc Hht Hready) in Hstep.
      injection Hstep as <-. unfold replay, assigned_by.
      by rewrite H1c, H1t, Hhc. }
    rewrite Hstep. simpl. rewrite Hrep.
    apply (IH (done ++ [c])); [|done]. by rewrite <- app_assoc.
Qed.

(** The loop over the copies does exactly the writes of [replay]. *)
Lemma optimizeLoop_replay :
  optimizeLoop G cs h1 = Ok (foldl (replay G h1) h1 cs).
Proof.
  apply (optimizeLoop_replay_from [] cs h1); [done|].
  apply optimized_upto_nil.
Qed.

End Replay.

(** Membership in the copy list the walk leaves. *)
Lemma recorded_copy h0 l st c :
  instrumented_from (mkState h0 []) l st →
  c ∈ copies st → c ∈ l ∧ is_copy h0 c = true.
Proof.
  intros I. rewrite (inst_copies _ _ _ I). simpl.
  rewrite list_elem_of_filter. tauto.
Qed.

Lemma merges_true G h1 r c :
  merges G h1 r c = true ↔
  ∃ D t, h1 !! c = Some (SetLocal D t) ∧ eligible G t = true ∧
         r ∈ influences G t.
Proof.
  unfold merges. split.
  - destruct (h1 !! c) as [[]|]; try done.
    intros [H1 H2%bool_decide_eq_true]%andb_true_iff. eauto.
  - intros (D & t & -> & -> & Hr). by apply bool_decide_eq_true_2.
Qed.

Lemma elem_of_assigned_by G h1 r c :
  r ∈ assigned_by G h1 c ↔ merges G h1 r c = true.
Proof.
  unfold assigned_by, merges.
  destruct (h1 !! c) as [[]|]; try (split; [by intros ?%elem_of_nil|done]).
  destruct (eligible G value); simpl.
  - rewrite elem_of_elements. split.
    + apply bool_decide_eq_true_2.
    + apply bool_decide_eq_true_1.
  - split; [by intros ?%elem_of_nil|done].
Qed.

(** No read is assigned twice in a run of the loop over the copies. *)
Lemma assignments_NoDup h1 G cs :
  wf_copies h1 cs → graph_contract h1 G = true →
  NoDup (assignments G h1 cs).
Proof.
  intros W HG. unfold assignments.
  assert (∀ l, (∀ c, c ∈ l → c ∈ cs) → NoDup l →
               NoDup (concat (map (assigned_by G h1) l))) as Hgen.
  { induction l as [|c l IH]; intros Hsub Hnd; simpl; [constructor|].
    apply NoDup_cons in Hnd as [Hc Hnd].
    apply NoDup_app. split; [|split].
    - unfold assigned_by. destruct (h1 !! c) as [[]|]; try constructor.
      destruct (eligible G value); [apply NoDup_elements|constructor].
    - intros r Hr%elem_of_assigned_by Hr'.
      apply list_elem_of_In, in_concat in Hr' as (lr & Hlr & Hin).
      apply in_map_iff in Hlr as (c' & <- & Hc'%list_elem_of_In).
      apply list_elem_of_In, elem_of_assigned_by in Hin.
      apply merges_true in Hr as (D & t & H1 & E1 & Hr1).
      apply merges_true in Hin as (D' & t' & H2 & E2 & Hr2).
      rewrite eligible_true in E1.
      assert (c = c') as ->; [|done].
      eapply (merger_unique h1 G cs W HG c c'); eauto.
      + apply Hsub. by left.
      + apply Hsub. by right.
    - apply IH; [|done]. intros c' Hc'. apply Hsub. by right. }
  apply Hgen; [done|]. apply (wfc_nodup _ _ W).
Qed.

(** A read ends with its own index, or with the destination of a recorded
    copy whose merge loop assigned it. *)
Lemma read_final h1 G cs h' r i :
  optimized_upto h1 G cs h' →
  h1 !! r = Some (GetLocal i) →
  (existsb (merges G h1 r) cs = false ∧ h' !! r = Some (GetLocal i)) ∨
  (∃ c D t, c ∈ cs ∧ h1 !! c = Some (SetLocal D t) ∧
            eligible G t = true ∧ r ∈ influences G t ∧
            h' !! r = Some (GetLocal D)).
Proof.
  intros O H1r. destruct (existsb (merges G h1 r) cs) eqn:E.
  - right. apply existsb_exists in E as (c & Hc%list_elem_of_In & Hm).
    apply merges_true in Hm as (D & t & H1c & Hel & Hr).
    exists c, D, t. repeat split; try done.
    by apply (opt_merged _ _ _ _ O r i c D t).
  - left. split; [done|]. apply (opt_kept _ _ _ _ O); [done|].
    intros c D t Hc H1c Hel Hr.
    assert (existsb (merges G h1 r) cs = true) as E'; [|congruence].
    apply existsb_exists. exists c. split; [by apply list_elem_of_In|].
    apply merges_true. eauto.
Qed.

(** The traversal of a tree does not change when nodes keep their
    operands. *)
Lemma postorder_stable fuel (h h' : gmap ptr Expression) p l :
  postorder fuel h p = Some l →
  (∀ q e, q ∈ l → h !! q = Some e →
          ∃ e', h' !! q = Some e' ∧ children e' = children e) →
  postorder fuel h' p = Some l.
Proof.
  revert p l. induction fuel as [|fuel IH]; intros p l; simpl; [done|].
  destruct (h !! p) as [e|] eqn:Hp; [|done].
  destruct (mapM (postorder fuel h) (children e)) as [ls|] eqn:Hm; [|done].
  intros [= <-] Hsame.
  destruct (Hsame p e) as (e' & Hp' & Hch); [|done|].
  { apply elem_of_app. right. by apply list_elem_of_singleton. }
  rewrite Hp', Hch.
  assert (mapM (postorder fuel h') (children e) = Some ls) as ->; [|done].
  apply mapM_Some. apply mapM_Some in Hm.
  assert (∀ q e0, q ∈ concat ls → h !! q = Some e0 →
                  ∃ e', h' !! q = Some e' ∧ children e' = children e0) as Hs.
  { intros q e0 Hq. apply Hsame, elem_of_app. by left. }
  clear Hsame Hp Hp' Hch.
  induction Hm as [|c lc cs ls' Hc HF IHF]; constructor.
  - apply IH; [done|]. intros q e0 Hq. apply Hs. simpl.
    apply elem_of_app. by left.
  - apply IHF. intros q e0 Hq. apply Hs. simpl. apply elem_of_app. by right.
Qed.

(** The final heap against the input heap: nodes other than reads are as
    they were, and reads are still reads. *)
Lemma final_frame h0 l st G h' :
  instrumented_from (mkState h0 []) l st →
  optimized_upto (heap st) G (copies st) h' →
  (∀ q e, h0 !! q = Some e → isGetLocal e = false → h' !! q = Some e) ∧
  (∀ q i, h0 !! q = Some (GetLocal i) → ∃ j, h' !! q = Some (GetLocal j)).
Proof.
  intros I O. split.
  - intros q e H0q Hng.
    destruct (decide (q ∈ l ∧ is_copy h0 q = true)) as [[Hl Hc]|Hn].
    + destruct (inst_copy _ _ _ I q Hl Hc)
        as (D & g & S & t & H0c & H0g & Hne & H0t & Hc' & Ht').
      simpl in *. simplify_eq.
      apply (opt_clean _ _ _ _ O q D t S g); [|done..].
      rewrite (inst_copies _ _ _ I). simpl. by apply list_elem_of_filter.
    + apply (opt_other _ _ _ _ O); [|done|].
      * by apply (inst_same _ _ _ I).
      * intros Hq. apply Hn. by apply (recorded_copy h0 l st).
  - intros q i H0q. apply (opt_get _ _ _ _ O q i).
    by apply (instrumented_get _ _ _ _ _ I).
Qed.

Lemma final_postorder fuel body h0 l st G h' :
  postorder fuel h0 body = Some l →
  instrumented_from (mkState h0 []) l st →
  optimized_upto (heap st) G (copies st) h' →
  postorder fuel h' body = Some l.
Proof.
  intros Hpo I O. destruct (final_frame h0 l st G h' I O) as [Hw Hr].
  apply (postorder_stable fuel h0 h' body l Hpo).
  intros q e _ H0q. destruct (isGetLocal e) eqn:Hg.
  - destruct e; try done. destruct (Hr q index H0q) as [j Hj]. eauto.
  - exists e. split; [|done]. by apply Hw.
Qed.

(** * The properties of the pass *)

(** C4, copy detection and instrumentation.  On a function body that is a
    tree, the single post-order walk completes; the copy list it leaves is
    the list of the copies of the tree ([SetLocal D] of a [GetLocal S]
    with [S ≠ D]) in traversal order; each of them has had its value
    replaced by a freshly allocated [SetLocal S] that wraps the original
    read, which is itself unchanged; and every other node of the heap, in
    particular a write of a read of the same local or of any other
    expression, is as it was. *)
Theorem walk_instruments_copies fuel h0 body :
  is_tree fuel h0 body = true →
  ∃ l st,
    postorder fuel h0 body = Some l ∧
    walk fuel body (mkState h0 []) = Some st ∧
    copies st = filter (λ p, is_copy h0 p = true) l ∧
    (∀ p, p ∈ l → is_copy h0 p = true →
       ∃ D S get trivial,
         h0 !! p = Some (SetLocal D get) ∧
         h0 !! get = Some (GetLocal S) ∧ S ≠ D ∧
         h0 !! trivial = None ∧
         heap st !! p = Some (SetLocal D trivial) ∧
         heap st !! trivial = Some (SetLocal S get) ∧
         heap st !! get = Some (GetLocal S)) ∧
    (∀ p e, h0 !! p = Some e → ¬ (p ∈ l ∧ is_copy h0 p = true) →
            heap st !! p = Some e).
Proof.
  intros (l & Hpo & Hnd)%is_tree_postorder.
  destruct (walk_tree fuel h0 body l Hpo Hnd) as [Hw I].
  exists l, (visit_all l (mkState h0 [])). repeat split; try done.
  - apply (inst_copies _ _ _ I).
  - intros p Hp Hc.
    destruct (inst_copy _ _ _ I p Hp Hc)
      as (D & g & S & t & H0c & H0g & Hne & H0t & Hc' & Ht').
    exists D, S, g, t. repeat split; try done.
    by apply (instrumented_get _ _ _ _ _ I).
  - apply (inst_same _ _ _ I).
Qed.

Lemma walk_instruments_copies_witness :
  ∃ l st,
    postorder 10 copy_then_read 1%positive = Some l ∧
    walk 10 1%positive (mkState copy_then_read []) = Some st ∧
    copies st = [2%positive] ∧
    heap st !! 2%positive = Some (SetLocal 1%N 9%positive) ∧
    heap st !! 9%positive = Some (SetLocal 0%N 3%positive) ∧
    heap st !! 4%positive = copy_then_read !! 4%positive.
Proof.
  destruct (walk_instruments_copies 10 copy_then_read 1%positive)
    as (l & st & Hpo & Hw & Hcs & _); [vm_compute; reflexivity|].
  exists l, st. split; [done|]. split; [done|].
  assert (st = walked 10 copy_then_read) as ->.
  { unfold walked. by rewrite Hw. }
  vm_compute. repeat split; reflexivity.
Defined.

(** C8, clean input.  When the function body is a tree and no write in it
    copies another local, the pass completes and leaves the heap, and so
    the tree, exactly as it found it, whatever the local graph says. *)
Theorem clean_input_unchanged LG fuel body h0 :
  is_tree fuel h0 body = true →
  no_copies fuel h0 body = true →
  runPass LG fuel body h0 = Ok h0.
Proof.
  intros (l & Hpo & Hnd)%is_tree_postorder Hclean.
  unfold no_copies in Hclean. rewrite Hpo in Hclean.
  rewrite forallb_forall in Hclean.
  assert (∀ l' st, (∀ p, p ∈ l' → is_copy (heap st) p = false) →
                   visit_all l' st = st) as Hid.
  { induction l' as [|p l' IH] using rev_ind; intros st Hl'; [done|].
    rewrite visit_all_snoc, IH.
    - apply visit_not_copy, Hl', elem_of_app. right.
      by apply list_elem_of_singleton.
    - intros q Hq. apply Hl', elem_of_app. by left. }
  rewrite (runPass_unfold LG fuel body h0 (mkState h0 [])).
  - done.
  - rewrite (walk_postorder fuel h0 body l) by done.
    rewrite Hid; [done|]. intros p Hp%list_elem_of_In%Hclean. simpl.
    by apply negb_true_iff.
Qed.

Lemma clean_input_unchanged_witness :
  runPass (localGraph 10) 10 1%positive no_copy = Ok no_copy.
Proof.
  apply (clean_input_unchanged (localGraph 10) 10 1%positive no_copy);
    vm_compute; reflexivity.
Defined.

Lemma foldM_out_app {A B} (f : A → B → outcome A) (l1 l2 : list B) (a : A) :
  foldM_out f (l1 ++ l2) a = obind (foldM_out f l1 a) (foldM_out f l2).
Proof.
  revert a. induction l1 as [|b l1 IH]; intros a; simpl; [done|].
  destruct (f a b); simpl; [apply IH|done..].
Qed.

(** C9, one snapshot.  A run of the pass on a tree asks for the local
    graph exactly once, for the heap as the walk left it: in that heap
    every copy of the tree is instrumented and recorded, and none has been
    processed.  Under the contract of that graph, every copy is decided by
    that one graph on the heap as the earlier copies have left it: when
    the loop reaches a copy, it renames all the reads the graph gives as
    influenced by its trivial write if the graph gives each of them a
    single reaching write, and none of them otherwise.  The final heap is
    the result of exactly these decisions, so no answer of the analysis
    for any other heap has any effect on the run. *)
Theorem graph_computed_once LG fuel body h0 st :
  is_tree fuel h0 body = true →
  walk fuel body (mkState h0 []) = Some st →
  graph_contract (heap st) (LG (heap st) body) = true →
  requests LG (doWalkFunction fuel body h0) = [(heap st, body)] ∧
  (∃ l, postorder fuel h0 body = Some l ∧
        copies st = filter (λ p, is_copy h0 p = true) l ∧
        ∀ c, c ∈ l → is_copy h0 c = true →
          ∃ D t S g,
            h0 !! c = Some (SetLocal D g) ∧ h0 !! t = None ∧
            heap st !! c = Some (SetLocal D t) ∧
            heap st !! t = Some (SetLocal S g)) ∧
  (∀ done copy todo,
     copies st = done ++ copy :: todo →
     ∃ h_mid h_next D t,
       optimizeLoop (LG (heap st) body) done (heap st) = Ok h_mid ∧
       optimizeCopy (LG (heap st) body) h_mid copy = Ok h_next ∧
       optimizeLoop (LG (heap st) body) (done ++ [copy]) (heap st)
         = Ok h_next ∧
       heap st !! copy = Some (SetLocal D t) ∧
       (∀ r, r ∈ influences (LG (heap st) body) t →
             h_mid !! r = h0 !! r) ∧
       (eligible (LG (heap st) body) t = true →
        ∀ r, r ∈ influences (LG (heap st) body) t →
             h_next !! r = Some (GetLocal D)) ∧
       (eligible (LG (heap st) body) t = false →
        ∀ r, r ∈ influences (LG (heap st) body) t →
             h_next !! r = h0 !! r)) ∧
  (∃ h', runPass LG fuel body h0 = Ok h' ∧
         h' = foldl (replay (LG (heap st) body) (heap st)) (heap st)
                (copies st)) ∧
  (∀ LG' : Analysis,
     LG' (heap st) body = LG (heap st) body →
     runPass LG' fuel body h0 = runPass LG fuel body h0).
Proof.
  intros Ht Hw HG.
  destruct (pass_facts LG fuel body h0 st Ht Hw HG)
    as (l & h' & Hpo & Hnd & I & W & Hrun & O).
  split; [|split; [|split; [|split]]].
  - unfold doWalkFunction. rewrite Hw. done.
  - exists l. split; [done|]. split; [apply (inst_copies _ _ _ I)|].
    intros c Hc Hcopy.
    destruct (inst_copy _ _ _ I c Hc Hcopy)
      as (D & g & S & t & H0c & H0g & Hne & H0t & Hc' & Ht').
    exists D, t, S, g. done.
  - intros done c todo Heq.
    pose proof W as W1. rewrite Heq in W1.
    destruct (optimizeLoop_prefix _ _ _ _ W1 HG) as (h_mid & Hmid & Omid).
    assert (c ∈ copies st) as Hc.
    { rewrite Heq. apply elem_of_app. right. by left. }
    assert (c ∉ done) as Hcd.
    { pose proof (wfc_nodup _ _ W1) as Hnd'.
      apply NoDup_app in Hnd' as (_ & Hdisj & _).
      intros Hin. apply (Hdisj c Hin). by left. }
    assert (∀ c', c' ∈ done → c' ∈ copies st) as Hsub.
    { intros c' Hc'. rewrite Heq. apply elem_of_app. by left. }
    destruct (copy_ready _ _ _ W HG done c h_mid Hc Hcd Hsub Omid)
      as (D & t & S & g & Hmc & Hmt & Hready).
    destruct (wfc_shape _ _ W c Hc) as (D' & t' & S' & g' & H1c & H1t & _).
    assert (h_mid !! c = Some (SetLocal D' t')) as Hmc'
      by by apply (opt_other _ _ _ _ Omid).
    rewrite Hmc in Hmc'. injection Hmc' as <- <-.
    pose proof (optimizeCopy_ok _ h_mid c D t S g Hmc Hmt Hready) as Hstep.
    assert (∀ r, r ∈ influences (LG (heap st) body) t →
                 h_mid !! r = Some (GetLocal S) ∧
                 h0 !! r = Some (GetLocal S) ∧ r ≠ c) as Hreads.
    { intros r Hr. destruct (Hready r Hr) as [Hmr _].
      split; [done|]. split; [|congruence].
      assert (S' = S) as ->.
      { assert (h_mid !! t = Some (SetLocal S' g')) as Hmt'.
        { apply (opt_other _ _ _ _ Omid); [done..|].
          intros Hin. by apply (wfc_trivial _ _ W c D t Hc H1c), Hsub. }
        congruence. }
      pose proof (influenced_is_get _ _ HG t S g' r H1t Hr) as H1r.
      apply (instrumented_get_back _ _ _ _ _ I H1r). }
    eexists h_mid, _, D, t. split; [done|]. split; [exact Hstep|].
    split; [|split; [done|split; [|split]]].
    + unfold optimizeLoop in *. rewrite foldM_out_app, Hmid. simpl.
      by rewrite Hstep.
    + intros r Hr. destruct (Hreads r Hr) as (-> & -> & _). done.
    + intros Hel r Hr. rewrite Hel. destruct (Hreads r Hr) as (_ & _ & Hrc).
      rewrite lookup_alter_ne by done.
      rewrite (redirect_all c D t _ h_mid r Hmc).
      * rewrite decide_True; [done|]. by apply elem_of_elements.
      * intros r' Hr'%elem_of_elements.
        destruct (Hreads r' Hr') as (-> & _). eauto.
    + intros Hel r Hr. rewrite Hel. destruct (Hreads r Hr) as (Hm & H0 & Hrc).
      rewrite lookup_alter_ne by done. congruence.
  - exists h'. split; [done|].
    rewrite (runPass_unfold LG fuel body h0 st Hw) in Hrun.
    rewrite (optimizeLoop_replay _ _ _ W HG) in Hrun. by injection Hrun.
  - intros LG' Heq.
    rewrite (runPass_unfold LG' fuel body h0 st Hw).
    rewrite (runPass_unfold LG fuel body h0 st Hw). by rewrite Heq.
Qed.

Lemma graph_computed_once_witness :
  ∃ h', runPass stale_elsewhere 10 1%positive two_copies = Ok h' ∧
        h' !! 3%positive = Some (GetLocal 0%N) ∧
        h' !! 5%positive = Some (GetLocal 1%N).
Proof.
  destruct (graph_computed_once stale_elsewhere 10 1%positive two_copies
              (walked 10 two_copies))
    as (_ & _ & _ & (h' & Hrun & Heq) & _); [vm_compute; reflexivity ..|].
  exists h'. split; [done|]. rewrite Heq.
  split; vm_compute; reflexivity.
Defined.

(** C7, the two checks.  Under the contract of the local graph (a write
    influences only reads of its own index, and is among the reaching
    writes of every read it influences), the pass on a tree runs to
    completion: no check fires.  In detail, when the loop reaches a copy,
    however many copies it has processed before, the copy's value is still
    its trivial write, every read the trivial write influences still has
    the index of the trivial write, and whenever such a read has exactly
    one reaching write, the first element of that set is the trivial
    write. *)
Theorem checks_never_fire LG fuel body h0 st :
  is_tree fuel h0 body = true →
  walk fuel body (mkState h0 []) = Some st →
  graph_contract (heap st) (LG (heap st) body) = true →
  (∃ h', runPass LG fuel body h0 = Ok h') ∧
  ∀ done copy todo,
    copies st = done ++ copy :: todo →
    ∃ h D trivial S get,
      optimizeLoop (LG (heap st) body) done (heap st) = Ok h ∧
      h !! copy = Some (SetLocal D trivial) ∧
      h !! trivial = Some (SetLocal S get) ∧
      ∀ r, r ∈ influences (LG (heap st) body) trivial →
        h !! r = Some (GetLocal S) ∧
        (size (getSets (LG (heap st) body) r) = 1 →
         head (elements (getSets (LG (heap st) body) r)) = Some (Some trivial)).
Proof.
  intros Ht Hw HG.
  destruct (pass_facts LG fuel body h0 st Ht Hw HG)
    as (l & h' & Hpo & Hnd & I & W & Hrun & O).
  split; [eauto|].
  intros done copy todo Heq. rewrite Heq in W.
  destruct (optimizeLoop_prefix _ _ _ _ W HG) as (h & Hloop & Oh).
  destruct (copy_ready _ _ _ W HG done copy h) as (D & t & S & g & H1 & H2 & H3).
  - apply elem_of_app. right. by left.
  - pose proof (wfc_nodup _ _ W) as Hnd'.
    apply NoDup_app in Hnd' as (_ & Hdisj & _).
    intros Hc. apply (Hdisj copy Hc). by left.
  - intros c' Hc'. apply elem_of_app. by left.
  - done.
  - exists h, D, t, S, g. eauto.
Qed.

Lemma checks_never_fire_witness :
  ∃ h', runPass (localGraph 10) 10 1%positive two_copies = Ok h'.
Proof.
  apply (checks_never_fire (localGraph 10) 10 1%positive two_copies
           (walked 10 two_copies)); vm_compute; reflexivity.
Defined.

(** C2, soundness of the merge.  On a tree and under the contract of the
    local graph the pass completes, and for every recorded copy: if some
    read influenced by its trivial write has a reaching set whose size is
    not 1, then every read influenced by that trivial write is in the
    final heap exactly as it was in the input, so none of them has had its
    index changed, by this copy or by any other. *)
Theorem skipped_copy_renames_nothing LG fuel body h0 st :
  is_tree fuel h0 body = true →
  walk fuel body (mkState h0 []) = Some st →
  graph_contract (heap st) (LG (heap st) body) = true →
  ∃ h', runPass LG fuel body h0 = Ok h' ∧
    ∀ copy D trivial,
      copy ∈ copies st →
      heap st !! copy = Some (SetLocal D trivial) →
      (∃ r, r ∈ influences (LG (heap st) body) trivial ∧
            size (getSets (LG (heap st) body) r) ≠ 1) →
      ∀ r, r ∈ influences (LG (heap st) body) trivial →
           h' !! r = h0 !! r ∧ ∃ S, h0 !! r = Some (GetLocal S).
Proof.
  intros Ht Hw HG.
  destruct (pass_facts LG fuel body h0 st Ht Hw HG)
    as (l & h' & Hpo & Hnd & I & W & Hrun & O).
  exists h'. split; [done|].
  intros c D t Hc H1c Hex r Hr.
  apply eligible_false in Hex.
  rewrite (skipped_reads_kept _ _ _ _ c D t r W HG O) by done.
  destruct (wfc_shape _ _ W c Hc) as (D' & t' & S & g & H1c' & H1t & _).
  simplify_eq.
  pose proof (influenced_is_get _ _ HG t S g r H1t Hr) as H1r.
  rewrite H1r.
  pose proof (instrumented_get_back _ _ _ _ _ I H1r) as H0r. simpl in H0r.
  rewrite H0r. eauto.
Qed.

Lemma skipped_copy_renames_nothing_witness :
  ∃ h', runPass (localGraph 10) 10 1%positive copy_then_branch = Ok h' ∧
        h' !! 16%positive = Some (GetLocal 0%N).
Proof.
  destruct (skipped_copy_renames_nothing (localGraph 10) 10 1%positive
              copy_then_branch (walked 10 copy_then_branch))
    as (h' & Hrun & Hkept); [vm_compute; reflexivity ..|].
  exists h'. split; [done|].
  destruct (Hkept 8%positive 1%N 18%positive) with (r := 16%positive)
    as [-> _];
    [by_compute | vm_compute; reflexivity | | by_compute
    | vm_compute; reflexivity].
  exists 16%positive. split; by_compute.
Defined.

(** C3 as stated fails: in [D = S; D = S] the trivial write of the second
    copy influences no read, so every read it influences has one reaching
    write; the pass completes on this tree with a graph that meets the
    contract, and the read of the second copy having been merged by the
    first, the second copy ends as [D = D], which is no copy. *)
Lemma eligible_copy_not_left_a_copy :
  is_tree 10 same_destination 1%positive = true ∧
  graph_contract (heap (walked 10 same_destination))
    (localGraph 10 (heap (walked 10 same_destination)) 1%positive) = true ∧
  runPass (localGraph 10) 10 1%positive same_destination
    = Ok (passed 10 same_destination) ∧
  4%positive ∈ copies (walked 10 same_destination) ∧
  heap (walked 10 same_destination) !! 4%positive
    = Some (SetLocal 1%N 7%positive) ∧
  (∀ r, r ∈ influences
             (localGraph 10 (heap (walked 10 same_destination)) 1%positive)
             7%positive →
        size (getSets
                (localGraph 10 (heap (walked 10 same_destination)) 1%positive)
                r) = 1) ∧
  same_destination !! 4%positive = Some (SetLocal 1%N 5%positive) ∧
  same_destination !! 5%positive = Some (GetLocal 0%N) ∧
  passed 10 same_destination !! 4%positive = Some (SetLocal 1%N 5%positive) ∧
  passed 10 same_destination !! 5%positive = Some (GetLocal 1%N) ∧
  is_copy (passed 10 same_destination) 4%positive = false ∧
  ¬ restored_as_it_started same_destination (passed 10 same_destination)
      4%positive.
Proof.
  assert (passed 10 same_destination !! 5%positive = Some (GetLocal 1%N)) as E3
    by (vm_compute; reflexivity).
  assert (same_destination !! 5%positive = Some (GetLocal 0%N)) as E2
    by (vm_compute; reflexivity).
  assert (same_destination !! 4%positive = Some (SetLocal 1%N 5%positive)) as E1
    by (vm_compute; reflexivity).
  split; [vm_compute; reflexivity|].
  split; [vm_compute; reflexivity|].
  split; [vm_compute; reflexivity|].
  split; [by_compute|].
  split; [vm_compute; reflexivity|].
  split.
  { intros r Hr.
    assert (influences
              (localGraph 10 (heap (walked 10 same_destination)) 1%positive)
              7%positive = ∅) as E by (vm_compute; reflexivity).
    rewrite E in Hr. by apply not_elem_of_empty in Hr. }
  split; [done|]. split; [done|].
  split; [vm_compute; reflexivity|]. split; [done|].
  split; [vm_compute; reflexivity|].
  intros (D & S & get & H0c & H0g & Hc & Hg).
  rewrite E1 in H0c. injection H0c as <- <-.
  rewrite E2 in H0g. injection H0g as <-.
  rewrite E3 in Hg. discriminate Hg.
Qed.

(** C3, amended.  On a tree and under the contract of the local graph the
    pass completes, and for every recorded copy with destination [D] and
    source [S]: if every read influenced by its trivial write has a
    reaching set of size exactly 1, then in the final heap every one of
    those reads reads [D], and the instrumentation is removed: the copy
    node is exactly the node it was in the input, a [SetLocal D] whose
    value is the original read node.  That read still reads [S], unless
    the merge of some recorded copy has renamed it, in which case it reads
    the destination of that copy; what is left is a copy exactly when that
    index is not [D] itself. *)
Theorem eligible_copy_merges_all LG fuel body h0 st :
  is_tree fuel h0 body = true →
  walk fuel body (mkState h0 []) = Some st →
  graph_contract (heap st) (LG (heap st) body) = true →
  ∃ h', runPass LG fuel body h0 = Ok h' ∧
    ∀ copy D trivial,
      copy ∈ copies st →
      heap st !! copy = Some (SetLocal D trivial) →
      (∀ r, r ∈ influences (LG (heap st) body) trivial →
            size (getSets (LG (heap st) body) r) = 1) →
      (∀ r, r ∈ influences (LG (heap st) body) trivial →
            h' !! r = Some (GetLocal D)) ∧
      ∃ S get i,
        h0 !! copy = Some (SetLocal D get) ∧
        h0 !! get = Some (GetLocal S) ∧ S ≠ D ∧
        h' !! copy = Some (SetLocal D get) ∧
        h' !! get = Some (GetLocal i) ∧
        (i = S ∨
         ∃ c' t', c' ∈ copies st ∧
                  heap st !! c' = Some (SetLocal i t') ∧
                  eligible (LG (heap st) body) t' = true ∧
                  get ∈ influences (LG (heap st) body) t') ∧
        is_copy h' copy = bool_decide (i ≠ D).
Proof.
  intros Ht Hw HG.
  destruct (pass_facts LG fuel body h0 st Ht Hw HG)
    as (l & h' & Hpo & Hnd & I & W & Hrun & O).
  exists h'. split; [done|].
  intros c D t Hc H1c Hall.
  apply eligible_true in Hall.
  destruct (recorded_copy _ _ _ _ I Hc) as [Hl Hcopy].
  destruct (inst_copy _ _ _ I c Hl Hcopy)
    as (D' & g & S & t' & H0c & H0g & Hne & H0t & Hc' & Ht').
  simpl in *. simplify_eq. split.
  - intros r Hr.
    apply (opt_merged _ _ _ _ O r S c D t); try done.
    by apply (influenced_is_get _ _ HG t S g r).
  - pose proof (instrumented_get _ _ _ _ _ I H0g) as H1g.
    assert (h' !! c = Some (SetLocal D g)) as Hclean
      by by apply (opt_clean _ _ _ _ O c D t S g).
    assert (∀ j, h' !! g = Some (GetLocal j) →
                 is_copy h' c = bool_decide (j ≠ D)) as Hshape.
    { intros j Hj. unfold is_copy. by rewrite Hclean, Hj. }
    destruct (read_final _ _ _ _ g S O H1g)
      as [[_ Hkeep]|(c' & D' & t' & Hc'' & H1c' & Hel & Hr & Hmerged)].
    + exists S, g, S. repeat split; try done; [by left|by apply Hshape].
    + exists S, g, D'. repeat split; try done; [|by apply Hshape].
      right. exists c', t'. done.
Qed.

Lemma eligible_copy_merges_all_witness :
  ∃ h', runPass (localGraph 10) 10 1%positive copy_then_read = Ok h' ∧
        h' !! 6%positive = Some (GetLocal 1%N) ∧
        h' !! 2%positive = Some (SetLocal 1%N 3%positive).
Proof.
  destruct (eligible_copy_merges_all (localGraph 10) 10 1%positive
              copy_then_read (walked 10 copy_then_read))
    as (h' & Hrun & Hall); [vm_compute; reflexivity ..|].
  exists h'. split; [done|].
  destruct (Hall 2%positive 1%N 9%positive)
    as (Hreads & S & get & i & H0 & _ & _ & Hcopy & _);
    [by_compute | vm_compute; reflexivity | |].
  - intros r Hr.
    assert (r = 6%positive) as ->.
    { assert (influences (localGraph 10 (heap (walked 10 copy_then_read))
                            1%positive) 9%positive = {[ 6%positive ]}) as E
        by (vm_compute; reflexivity).
      rewrite E in Hr. by apply elem_of_singleton in Hr. }
    by_compute.
  - split; [apply Hreads; by_compute|].
    assert (copy_then_read !! 2%positive = Some (SetLocal 1%N 3%positive)) as E
      by (vm_compute; reflexivity).
    rewrite E in H0. injection H0 as <-. exact Hcopy.
Defined.

(** C6, all or nothing.  On a tree and under the contract of the local
    graph the pass completes, and for every recorded copy with destination
    [D] either every read influenced by its trivial write has been renamed
    (it reads [D] in the final heap and did not in the input), or every
    one of them is exactly as it was in the input. *)
Theorem merge_all_or_nothing LG fuel body h0 st :
  is_tree fuel h0 body = true →
  walk fuel body (mkState h0 []) = Some st →
  graph_contract (heap st) (LG (heap st) body) = true →
  ∃ h', runPass LG fuel body h0 = Ok h' ∧
    ∀ copy D trivial,
      copy ∈ copies st →
      heap st !! copy = Some (SetLocal D trivial) →
      (∀ r, r ∈ influences (LG (heap st) body) trivial →
            h' !! r = Some (GetLocal D) ∧ h0 !! r ≠ Some (GetLocal D)) ∨
      (∀ r, r ∈ influences (LG (heap st) body) trivial →
            h' !! r = h0 !! r).
Proof.
  intros Ht Hw HG.
  destruct (pass_facts LG fuel body h0 st Ht Hw HG)
    as (l & h' & Hpo & Hnd & I & W & Hrun & O).
  exists h'. split; [done|].
  intros c D t Hc H1c.
  destruct (wfc_shape _ _ W c Hc) as (D' & t' & S & g & H1c' & H1t & _ & Hne).
  simplify_eq.
  assert (∀ r, r ∈ influences (LG (heap st) body) t →
               heap st !! r = Some (GetLocal S) ∧
               h0 !! r = Some (GetLocal S)) as Hget.
  { intros r Hr.
    pose proof (influenced_is_get _ _ HG t S g r H1t Hr) as H1r.
    split; [done|]. apply (instrumented_get_back _ _ _ _ _ I H1r). }
  destruct (eligible (LG (heap st) body) t) eqn:Hel.
  - left. intros r Hr. destruct (Hget r Hr) as [H1r H0r]. split.
    + by apply (opt_merged _ _ _ _ O r S c D t).
    + rewrite H0r. congruence.
  - right. intros r Hr. destruct (Hget r Hr) as [H1r H0r].
    rewrite (skipped_reads_kept _ _ _ _ c D t r W HG O) by done.
    congruence.
Qed.

Lemma merge_all_or_nothing_witness :
  ∃ h', runPass (localGraph 10) 10 1%positive copy_then_branch = Ok h' ∧
    ((∀ r, r ∈ influences (localGraph 10 (heap (walked 10 copy_then_branch))
                             1%positive) 18%positive →
           h' !! r = Some (GetLocal 1%N) ∧
           copy_then_branch !! r ≠ Some (GetLocal 1%N)) ∨
     (∀ r, r ∈ influences (localGraph 10 (heap (walked 10 copy_then_branch))
                             1%positive) 18%positive →
           h' !! r = copy_then_branch !! r)).
Proof.
  destruct (merge_all_or_nothing (localGraph 10) 10 1%positive
              copy_then_branch (walked 10 copy_then_branch))
    as (h' & Hrun & Hall); [vm_compute; reflexivity ..|].
  exists h'. split; [done|].
  apply (Hall 8%positive 1%N 18%positive);
    [by_compute | vm_compute; reflexivity].
Defined.

(** C5 as stated fails: in [D1 = S; D2 = S] the read of the second copy
    is merged by the first copy, so the pass, which completes on this tree
    with a graph that meets the contract, leaves [D2 = D1] where the
    second copy started as [D2 = S]. *)
Lemma cleanup_not_as_started :
  is_tree 10 two_copies 1%positive = true ∧
  graph_contract (heap (walked 10 two_copies))
    (localGraph 10 (heap (walked 10 two_copies)) 1%positive) = true ∧
  runPass (localGraph 10) 10 1%positive two_copies
    = Ok (passed 10 two_copies) ∧
  4%positive ∈ copies (walked 10 two_copies) ∧
  ¬ restored_as_it_started two_copies (passed 10 two_copies) 4%positive.
Proof.
  split; [vm_compute; reflexivity|].
  split; [vm_compute; reflexivity|].
  split; [vm_compute; reflexivity|].
  split; [by_compute|].
  intros (D & S & get & H0c & H0g & Hc & Hg).
  assert (two_copies !! 4%positive = Some (SetLocal 2%N 5%positive)) as E1
    by (vm_compute; reflexivity).
  rewrite E1 in H0c. injection H0c as <- <-.
  assert (two_copies !! 5%positive = Some (GetLocal 0%N)) as E2
    by (vm_compute; reflexivity).
  rewrite E2 in H0g. injection H0g as <-.
  assert (passed 10 two_copies !! 5%positive = Some (GetLocal 1%N)) as E3
    by (vm_compute; reflexivity).
  rewrite E3 in Hg. discriminate Hg.
Qed.

(** C5, amended.  On a tree and under the contract of the local graph
    the pass completes, and for every recorded copy, merged or not, the
    copy node is in the final heap exactly the node it was in the input:
    its value is the original read node again, and the trivial write is
    gone from under it.  That read node is still a read; its index is the
    one it had, unless the merge loop of some recorded copy assigned it,
    in which case it is the destination of that copy.  The final tree has
    the nodes of the input tree at the same places, and none of them is a
    node that the walk allocated. *)
Theorem cleanup_restores_copy_nodes LG fuel body h0 st :
  is_tree fuel h0 body = true →
  walk fuel body (mkState h0 []) = Some st →
  graph_contract (heap st) (LG (heap st) body) = true →
  ∃ h', runPass LG fuel body h0 = Ok h' ∧
    (∀ copy, copy ∈ copies st →
       ∃ D S get j,
         h0 !! copy = Some (SetLocal D get) ∧
         h0 !! get = Some (GetLocal S) ∧
         h' !! copy = Some (SetLocal D get) ∧
         h' !! get = Some (GetLocal j) ∧
         (j = S ∨
          ∃ c' t', c' ∈ copies st ∧
                   heap st !! c' = Some (SetLocal j t') ∧
                   eligible (LG (heap st) body) t' = true ∧
                   get ∈ influences (LG (heap st) body) t')) ∧
    postorder fuel h' body = postorder fuel h0 body ∧
    (∀ l q, postorder fuel h' body = Some l → q ∈ l → is_Some (h0 !! q)).
Proof.
  intros Ht Hw HG.
  destruct (pass_facts LG fuel body h0 st Ht Hw HG)
    as (l & h' & Hpo & Hnd & I & W & Hrun & O).
  destruct (final_frame h0 l st _ h' I O) as [Hframe _].
  exists h'. split; [done|]. split; [|split].
  - intros c Hc.
    destruct (recorded_copy _ _ _ _ I Hc) as [Hl Hcopy].
    destruct (inst_copy _ _ _ I c Hl Hcopy)
      as (D & g & S & t & H0c & H0g & Hne & H0t & Hc' & Ht').
    simpl in *.
    pose proof (instrumented_get _ _ _ _ _ I H0g) as H1g.
    exists D, S, g.
    destruct (read_final _ _ _ _ g S O H1g)
      as [[_ Hkeep]|(c' & D' & t' & Hc'' & H1c' & Hel & Hr & Hmerged)].
    + exists S. repeat split; try done; [by apply Hframe|by left].
    + exists D'. repeat split; try done; [by apply Hframe|].
      right. exists c', t'. done.
  - rewrite Hpo. by apply (final_postorder fuel body h0 l st _ h' Hpo I O).
  - intros l' q Hpo' Hq.
    rewrite (final_postorder fuel body h0 l st _ h' Hpo I O) in Hpo'.
    injection Hpo' as <-. by apply (postorder_allocated fuel h0 body l).
Qed.

Lemma cleanup_restores_copy_nodes_witness :
  ∃ h', runPass (localGraph 10) 10 1%positive two_copies = Ok h' ∧
        postorder 10 h' 1%positive = postorder 10 two_copies 1%positive.
Proof.
  destruct (cleanup_restores_copy_nodes (localGraph 10) 10 1%positive
              two_copies (walked 10 two_copies))
    as (h' & Hrun & _ & Hpo & _); [vm_compute; reflexivity ..|].
  exists h'. done.
Defined.

(** C10, the frame.  On a tree and under the contract of the local graph
    the pass completes, and: the final tree has the same nodes at the same
    places as the input tree; every node of the input that is not a read,
    so every write with its index and its value, is unchanged; a read is
    still a read, only its index may differ.  The index of a read is
    assigned at most once: the writes of the run are those of [replay],
    and the list of its index assignments has no read twice; a read that the merge loop of one recorded copy
    assigns is not even influenced by the trivial write of another; and
    once the loop over the copies has changed the index of a read,
    processing further copies leaves that read alone. *)
Theorem pass_changes_read_indices_only LG fuel body h0 st :
  is_tree fuel h0 body = true →
  walk fuel body (mkState h0 []) = Some st →
  graph_contract (heap st) (LG (heap st) body) = true →
  ∃ h', runPass LG fuel body h0 = Ok h' ∧
    postorder fuel h' body = postorder fuel h0 body ∧
    (∀ q e, h0 !! q = Some e → isGetLocal e = false → h' !! q = Some e) ∧
    (∀ q i, h0 !! q = Some (GetLocal i) → ∃ j, h' !! q = Some (GetLocal j)) ∧
    h' = foldl (replay (LG (heap st) body) (heap st)) (heap st) (copies st) ∧
    NoDup (assignments (LG (heap st) body) (heap st) (copies st)) ∧
    (∀ r c1 c2 D2 t2,
       c1 ∈ copies st → c2 ∈ copies st →
       merges (LG (heap st) body) (heap st) r c1 = true →
       heap st !! c2 = Some (SetLocal D2 t2) →
       r ∈ influences (LG (heap st) body) t2 →
       c1 = c2) ∧
    (∀ done1 done2 todo ha hb r i,
       copies st = done1 ++ done2 ++ todo →
       optimizeLoop (LG (heap st) body) done1 (heap st) = Ok ha →
       optimizeLoop (LG (heap st) body) (done1 ++ done2) (heap st) = Ok hb →
       h0 !! r = Some (GetLocal i) →
       ha !! r ≠ Some (GetLocal i) →
       hb !! r = ha !! r).
Proof.
  intros Ht Hw HG.
  destruct (pass_facts LG fuel body h0 st Ht Hw HG)
    as (l & h' & Hpo & Hnd & I & W & Hrun & O).
  destruct (final_frame h0 l st _ h' I O) as [Hwrites Hreads].
  exists h'. split; [done|].
  split; [|split; [done|split; [done|split; [|split; [|split]]]]].
  - rewrite Hpo. by apply (final_postorder fuel body h0 l st _ h' Hpo I O).
  - rewrite (runPass_unfold LG fuel body h0 st Hw) in Hrun.
    rewrite (optimizeLoop_replay _ _ _ W HG) in Hrun. by injection Hrun.
  - by apply assignments_NoDup.
  - intros r c1 c2 D2 t2 Hc1 Hc2 (D1 & t1 & H1 & E1 & Hr1)%merges_true
      H2 Hr2.
    rewrite eligible_true in E1.
    eapply (merger_unique _ _ _ W HG); eauto.
  - intros done1 done2 todo ha hb r i Heq Ha Hb H0r Hchanged.
    pose proof (instrumented_get _ _ _ _ _ I H0r) as H1r.
    pose proof W as W1. rewrite Heq in W1.
    pose proof W as W2. rewrite Heq, app_assoc in W2.
    destruct (optimizeLoop_prefix _ _ _ _ W1 HG) as (ha' & Ha' & Oa).
    destruct (optimizeLoop_prefix _ _ _ _ W2 HG) as (hb' & Hb' & Ob).
    rewrite Ha in Ha'. injection Ha' as <-.
    rewrite Hb in Hb'. injection Hb' as <-.
    destruct (read_final _ _ _ _ r i Oa H1r)
      as [[_ Hkeep]|(c & D & t & Hc & H1c & Hel & Hr & Hmerged)]; [done|].
    rewrite Hmerged.
    apply (opt_merged _ _ _ _ Ob r i c D t); try done.
    apply elem_of_app. by left.
Qed.

Lemma pass_changes_read_indices_only_witness :
  ∃ h', runPass (localGraph 10) 10 1%positive copy_then_read = Ok h' ∧
        h' !! 4%positive = Some (SetLocal 2%N 5%positive).
Proof.
  destruct (pass_changes_read_indices_only (localGraph 10) 10 1%positive
              copy_then_read (walked 10 copy_then_read))
    as (h' & Hrun & _ & Hwrites & _); [vm_compute; reflexivity ..|].
  exists h'. split; [done|].
  apply Hwrites; vm_compute; reflexivity.
Defined.

(** C1 fails on the code.  In [x = y; x = x + 1; y] the final read of [y]
    is influenced only by the trivial write of [y] at the copy, so the pass
    renames it to [x]; but [x] has been written in between.  With [y = 7]
    on entry the body returns 7 before the pass and 8 after it. *)
Theorem merge_changes_result :
  is_tree 10 increment_after_copy 1%positive = true ∧
  graph_contract (heap (walked 10 increment_after_copy))
    (localGraph 10 (heap (walked 10 increment_after_copy)) 1%positive) = true ∧
  runPass (localGraph 10) 10 1%positive increment_after_copy
    = Ok (passed 10 increment_after_copy) ∧
  passed 10 increment_after_copy !! 8%positive = Some (GetLocal 1%N) ∧
  result 10 increment_after_copy 1%positive {[ 0%N := 7%Z ]}
    = Some (Some 7%Z) ∧
  result 10 (passed 10 increment_after_copy) 1%positive {[ 0%N := 7%Z ]}
    = Some (Some 8%Z).
Proof. repeat split; vm_compute; reflexivity. Qed.

(** * Further properties of the walk *)

(** X1.  Visiting a node a second time does nothing more: a copy that has
    been instrumented has a [SetLocal] for value, so it is never wrapped
    twice. *)
Theorem visit_idempotent (p : ptr) (st : State) :
  visit p (visit p st) = visit p st.
Proof.
  destruct (is_copy (heap st) p) eqn:Hc.
  - pose proof Hc as Hc'. apply is_copy_true in Hc' as (D & g & S & Hp & Hg & Hne).
    rewrite (visit_copy p st D g S Hp Hg Hne).
    apply visit_not_copy. simpl.
    assert (alloc (heap st) ≠ p) as Htp.
    { intros E. pose proof (alloc_fresh (heap st)) as Hf. congruence. }
    unfold is_copy. rewrite lookup_insert_eq.
    rewrite lookup_insert_ne by done. by rewrite lookup_insert_eq.
  - by rewrite !(visit_not_copy p st Hc).
Qed.

Lemma visit_size (p : ptr) (st : State) :
  size (heap (visit p st)) + length (copies st) =
  size (heap st) + length (copies (visit p st)).
Proof.
  destruct (is_copy (heap st) p) eqn:Hc.
  - apply is_copy_true in Hc as (D & g & S & Hp & Hg & Hne).
    rewrite (visit_copy p st D g S Hp Hg Hne). simpl.
    assert (alloc (heap st) ≠ p) as Htp.
    { intros E. pose proof (alloc_fresh (heap st)) as Hf. congruence. }
    rewrite map_size_insert_Some.
    2:{ rewrite lookup_insert_ne by done. eauto. }
    rewrite map_size_insert_None by apply alloc_fresh.
    rewrite length_app. simpl. lia.
  - by rewrite (visit_not_copy p st Hc).
Qed.

Lemma visit_all_size (l : list ptr) (st : State) :
  size (heap (visit_all l st)) + length (copies st) =
  size (heap st) + length (copies (visit_all l st)).
Proof.
  induction l as [|p l IH] using rev_ind; [done|].
  rewrite visit_all_snoc.
  pose proof (visit_size p (visit_all l st)). lia.
Qed.

(** X2.  What the walk over a tree hands on: the recorded copies are
    pairwise distinct nodes of the input heap; the value of each is a node
    that was not allocated before, a [SetLocal] of the source index around
    the original read; two recorded copies never share that node, and it
    is never itself recorded; nothing is freed, and the heap has grown by
    exactly one node per recorded copy. *)
Theorem walk_allocates_one_node_per_copy fuel h0 body st :
  is_tree fuel h0 body = true →
  walk fuel body (mkState h0 []) = Some st →
  NoDup (copies st) ∧
  (∀ c, c ∈ copies st →
     is_copy h0 c = true ∧
     ∃ D trivial, heap st !! c = Some (SetLocal D trivial) ∧
                  h0 !! trivial = None ∧ trivial ∉ copies st) ∧
  (∀ c1 c2 D1 D2 trivial,
     c1 ∈ copies st → c2 ∈ copies st →
     heap st !! c1 = Some (SetLocal D1 trivial) →
     heap st !! c2 = Some (SetLocal D2 trivial) → c1 = c2) ∧
  dom h0 ⊆ dom (heap st) ∧
  size (heap st) = size h0 + length (copies st).
Proof.
  intros Ht Hw.
  destruct (walk_is_tree _ _ _ _ Ht Hw) as (l & Hpo & Hnd & I).
  pose proof (instrumented_wf_copies (mkState h0 []) l st eq_refl Hnd I) as W.
  split; [apply (wfc_nodup _ _ W)|]. split; [|split; [|split]].
  - intros c Hc. destruct (recorded_copy _ _ _ _ I Hc) as [Hl Hcopy].
    split; [done|].
    destruct (inst_copy _ _ _ I c Hl Hcopy)
      as (D & g & S & t & H0c & H0g & Hne & H0t & Hc' & Ht').
    exists D, t. repeat split; try done.
    by apply (wfc_trivial _ _ W c D t).
  - apply (wfc_inj _ _ W).
  - intros q [e He]%elem_of_dom. apply elem_of_dom.
    destruct (decide (q ∈ l ∧ is_copy h0 q = true)) as [[Hl Hc]|Hn].
    + destruct (inst_copy _ _ _ I q Hl Hc) as (?&?&?&?&?&?&?&?&Hq&?). eauto.
    + rewrite (inst_same _ _ _ I q e He Hn). eauto.
  - destruct (walk_tree fuel h0 body l Hpo Hnd) as [Hw' _].
    rewrite Hw in Hw'. injection Hw' as ->.
    pose proof (visit_all_size l (mkState h0 [])) as Hs. simpl in Hs. lia.
Qed.

Lemma walk_allocates_one_node_per_copy_witness :
  size (heap (walked 10 two_copies)) = size two_copies + 2.
Proof.
  destruct (walk_allocates_one_node_per_copy 10 two_copies 1%positive
              (walked 10 two_copies)) as (_ & _ & _ & _ & Hs);
    [vm_compute; reflexivity ..|].
  rewrite Hs. f_equal.
Defined.

Lemma visit_all_no_copy (l : list ptr) (st : State) :
  (∀ p, p ∈ l → is_copy (heap st) p = false) → visit_all l st = st.
Proof.
  induction l as [|p l IH] using rev_ind; intros Hl; [done|].
  rewrite visit_all_snoc, IH.
  - apply visit_not_copy, Hl, elem_of_app. right.
    by apply list_elem_of_singleton.
  - intros q Hq. apply Hl, elem_of_app. by left.
Qed.

Lemma postorder_root fuel (h : gmap ptr Expression) p l :
  postorder fuel h p = Some l → p ∈ l.
Proof.
  destruct fuel as [|fuel]; simpl; [done|].
  destruct (h !! p) as [e|]; [|done].
  destruct (mapM (postorder fuel h) (children e)) as [ls|]; [|done].
  intros [= <-]. apply elem_of_app. right. by apply list_elem_of_singleton.
Qed.

(** The nodes of a traversal satisfy [P] when the root does and [P]
    passes from a node to its operands. *)
Lemma postorder_ind_nodes fuel (h : gmap ptr Expression) (P : ptr → Prop) :
  (∀ q e c, P q → h !! q = Some e → c ∈ children e → P c) →
  ∀ p l, postorder fuel h p = Some l → P p → ∀ q, q ∈ l → P q.
Proof.
  intros Hstep. induction fuel as [|fuel IH]; intros p l; simpl; [done|].
  destruct (h !! p) as [e|] eqn:Hp; [|done].
  destruct (mapM (postorder fuel h) (children e)) as [ls|] eqn:Hm; [|done].
  intros [= <-] HP q [Hq|Hq%list_elem_of_singleton]%elem_of_app;
    [|by subst].
  apply mapM_Some in Hm.
  apply elem_of_concat in Hq as (lq & Hq & Hlq).
  apply list_elem_of_lookup in Hlq as [i Hi].
  destruct (Forall2_lookup_r _ _ _ _ _ Hm Hi) as (c & Hci & Hc).
  apply (IH c lq Hc); [|done].
  apply (Hstep p e c HP Hp). apply list_elem_of_lookup. eauto.
Qed.

(** The operands of a node of a traversal are in the traversal. *)
Lemma postorder_closed fuel (h : gmap ptr Expression) p l :
  postorder fuel h p = Some l →
  ∀ q e c, q ∈ l → h !! q = Some e → c ∈ children e → c ∈ l.
Proof.
  revert p l. induction fuel as [|fuel IH]; intros p l; simpl; [done|].
  destruct (h !! p) as [e|] eqn:Hp; [|done].
  destruct (mapM (postorder fuel h) (children e)) as [ls|] eqn:Hm; [|done].
  intros [= <-] q e' c Hq Hq' Hc. apply mapM_Some in Hm.
  apply elem_of_app. left.
  apply elem_of_app in Hq as [Hq|Hq%list_elem_of_singleton].
  - apply elem_of_concat in Hq as (lq & Hq & Hlq).
    apply list_elem_of_lookup in Hlq as [i Hi].
    destruct (Forall2_lookup_r _ _ _ _ _ Hm Hi) as (c' & Hci & Hc').
    apply list_elem_of_In, in_concat. exists lq. split.
    + apply list_elem_of_In, list_elem_of_lookup. eauto.
    + apply list_elem_of_In. by apply (IH c' lq Hc' q e' c).
  - subst q. rewrite Hp in Hq'. injection Hq' as <-.
    apply list_elem_of_lookup in Hc as [i Hi].
    destruct (Forall2_lookup_l _ _ _ _ _ Hm Hi) as (lc & Hlc & Hc').
    apply list_elem_of_In, in_concat. exists lc. split.
    + apply list_elem_of_In, list_elem_of_lookup. eauto.
    + apply list_elem_of_In. by apply (postorder_root fuel h c).
Qed.

(** After the walk no node of the tree, and no node the walk allocated, is
    a copy any more. *)
Lemma instrumented_no_copy h0 l st q :
  instrumented_from (mkState h0 []) l st →
  q ∈ l ∨ h0 !! q = None →
  is_copy (heap st) q = false.
Proof.
  intros I Hq. destruct (is_copy (heap st) q) eqn:Hc; [|done].
  apply is_copy_true in Hc as (D & g & S & H1q & H1g & Hne).
  pose proof (instrumented_get_back _ _ _ _ _ I H1g) as H0g. simpl in H0g.
  destruct (h0 !! q) as [e|] eqn:H0q.
  - destruct Hq as [Hl|?]; [|done].
    destruct (is_copy h0 q) eqn:Hc0.
    + destruct (inst_copy _ _ _ I q Hl Hc0)
        as (D' & g' & S' & t & _ & _ & _ & _ & Hq' & Ht).
      congruence.
    + assert (heap st !! q = Some e) as Hsame.
      { apply (inst_same _ _ _ I); [done|]. simpl. intros [_ ?]. congruence. }
      rewrite H1q in Hsame. injection Hsame as <-.
      assert (is_copy h0 q = true); [|congruence].
      apply is_copy_true. exists D, g, S. done.
  - destruct (inst_new_shape _ _ _ _ _ I H0q H1q) as (S' & g' & [= <- <-] & Hg').
    congruence.
Qed.

(** The instrumented tree consists of nodes of the input tree and of nodes
    the walk allocated. *)
Lemma instrumented_nodes fuel fuel' h0 body l st l' :
  postorder fuel h0 body = Some l →
  instrumented_from (mkState h0 []) l st →
  postorder fuel' (heap st) body = Some l' →
  ∀ q, q ∈ l' → q ∈ l ∨ h0 !! q = None.
Proof.
  intros Hpo I Hpo'.
  apply (postorder_ind_nodes fuel' (heap st) (λ q, q ∈ l ∨ h0 !! q = None))
    with (p := body); [|done|].
  - intros q e c Hq H1q Hc.
    destruct (h0 !! q) as [e0|] eqn:H0q.
    + destruct Hq as [Hl|?]; [|done].
      destruct (is_copy h0 q) eqn:Hc0.
      * destruct (inst_copy _ _ _ I q Hl Hc0)
          as (D & g & S & t & _ & _ & _ & H0t & Hq' & Ht).
        rewrite H1q in Hq'. injection Hq' as ->. simpl in Hc.
        apply list_elem_of_singleton in Hc as ->. by right.
      * assert (heap st !! q = Some e0) as Hsame.
        { apply (inst_same _ _ _ I); [done|]. simpl. intros [_ ?]. congruence. }
        rewrite H1q in Hsame. injection Hsame as ->.
        left. by apply (postorder_closed fuel h0 body l Hpo q e0 c).
    + destruct (inst_new _ _ _ I q e H0q H1q) as (c' & D & Hc' & Hcopy & Hc'q).
      destruct (inst_copy _ _ _ I c' Hc' Hcopy)
        as (D' & g & S & t & H0c' & _ & _ & _ & Hq' & Ht).
      simpl in *. assert (t = q) as -> by congruence.
      rewrite H1q in Ht. injection Ht as ->. simpl in Hc.
      apply list_elem_of_singleton in Hc as ->.
      left. apply (postorder_closed fuel h0 body l Hpo c' (SetLocal D' g) g);
        [done..|]. simpl. by apply list_elem_of_singleton.
  - left. by apply (postorder_root fuel h0).
Qed.

(** X3.  Instrumenting is idempotent: a second walk over the instrumented
    body, from the state the first walk left, records no further copy and
    changes no node. *)
Theorem second_walk_changes_nothing fuel fuel' h0 body st :
  is_tree fuel h0 body = true →
  walk fuel body (mkState h0 []) = Some st →
  is_tree fuel' (heap st) body = true →
  walk fuel' body st = Some st.
Proof.
  intros Ht Hw Ht'.
  destruct (walk_is_tree _ _ _ _ Ht Hw) as (l & Hpo & Hnd & I).
  apply is_tree_postorder in Ht' as (l' & Hpo' & Hnd').
  rewrite (walk_postorder fuel' (heap st) body l' st Hpo' Hnd') by done.
  f_equal. apply visit_all_no_copy. intros q Hq.
  apply (instrumented_no_copy h0 l st q I).
  by apply (instrumented_nodes fuel fuel' h0 body l st l').
Qed.

Lemma second_walk_changes_nothing_witness :
  walk 11 1%positive (walked 10 two_copies) = Some (walked 10 two_copies).
Proof.
  apply (second_walk_changes_nothing 10 11 two_copies 1%positive);
    vm_compute; reflexivity.
Defined.

(** * Further properties of the optimizer *)

(** The first loop, read backwards: when it completes, every check has
    passed. *)
Lemma check_loop_inv G (h : gmap ptr Expression) (t : ptr) S g
    (l : list ptr) (b b' : bool) :
  h !! t = Some (SetLocal S g) →
  foldM_out (checkInfluenced G h t) l b = Ok b' →
  ∀ r, r ∈ l →
    h !! r = Some (GetLocal S) ∧
    (size (getSets G r) = 1 →
     head (elements (getSets G r)) = Some (Some t)).
Proof.
  intros Ht. revert b. induction l as [|r l IH]; intros b Hok r' Hr'.
  - by apply elem_of_nil in Hr'.
  - simpl in Hok.
    destruct (checkInfluenced G h t b r) as [b1| |] eqn:Hchk; try done.
    simpl in Hok.
    apply elem_of_cons in Hr' as [->|Hr']; [|by eapply IH].
    unfold checkInfluenced in Hchk. rewrite Ht in Hchk.
    destruct (h !! r) as [[]|]; try done.
    destruct (decide (index = S)) as [->|]; [|done].
    split; [done|]. intros Hsz.
    rewrite decide_True in Hchk by done.
    by destruct (decide (head (elements (getSets G r)) = Some (Some t))).
Qed.

(** One iteration of the loop over the copies, read backwards. *)
Lemma optimizeCopy_Ok_inv G (h h' : gmap ptr Expression) (copy : ptr) :
  optimizeCopy G h copy = Ok h' →
  ∃ D trivial S get,
    h !! copy = Some (SetLocal D trivial) ∧
    h !! trivial = Some (SetLocal S get) ∧
    (∀ r, r ∈ influences G trivial →
       h !! r = Some (GetLocal S) ∧
       (size (getSets G r) = 1 →
        head (elements (getSets G r)) = Some (Some trivial))) ∧
    h' = alter (setValue get) copy
           (foldl (redirect copy) h (assigned_by G h copy)).
Proof.
  intros Hok. pose proof Hok as Hok'. unfold optimizeCopy in Hok.
  destruct (h !! copy) as [[]|] eqn:Hc; try done.
  destruct (h !! value) as [[]|] eqn:Ht; try done.
  destruct (foldM_out (checkInfluenced G h value)
              (elements (influences G value)) true) as [b| |] eqn:Hloop;
    try done.
  exists index, value, index0, value0.
  assert (∀ r, r ∈ influences G value →
            h !! r = Some (GetLocal index0) ∧
            (size (getSets G r) = 1 →
             head (elements (getSets G r)) = Some (Some value))) as Hchk.
  { intros r Hr. eapply check_loop_inv; eauto. by apply elem_of_elements. }
  repeat split; try done; try apply Hchk; try done.
  rewrite (optimizeCopy_assigned G h copy index value index0 value0)
    in Hok' by done.
  by injection Hok'.
Qed.

(** X4.  One iteration of the loop over the copies completes exactly when
    the copy's value is a [SetLocal] and every read that one influences
    passes both checks (it reads the index of that [SetLocal], and if it
    has a single reaching write, the first element of its set is that
    [SetLocal]); the heap it returns is then the old heap with the index
    assignments of the second loop and the new value of the copy, and
    nothing else. *)
Theorem optimizeCopy_Ok_iff G (h h' : gmap ptr Expression) (copy : ptr) :
  optimizeCopy G h copy = Ok h' ↔
  ∃ D trivial S get,
    h !! copy = Some (SetLocal D trivial) ∧
    h !! trivial = Some (SetLocal S get) ∧
    (∀ r, r ∈ influences G trivial →
       h !! r = Some (GetLocal S) ∧
       (size (getSets G r) = 1 →
        head (elements (getSets G r)) = Some (Some trivial))) ∧
    h' = alter (setValue get) copy
           (foldl (redirect copy) h (assigned_by G h copy)).
Proof.
  split.
  - apply optimizeCopy_Ok_inv.
  - intros (D & t & S & g & Hc & Ht & Hchk & ->).
    by apply (optimizeCopy_assigned G h copy D t S g).
Qed.

(** The first loop stops at a failed check. *)
Lemma check_loop_fail G (h : gmap ptr Expression) (t : ptr) S g
    (l : list ptr) (b : bool) :
  h !! t = Some (SetLocal S g) →
  (∀ r, r ∈ l → ∃ i, h !! r = Some (GetLocal i)) →
  (∃ r, r ∈ l ∧
        (h !! r ≠ Some (GetLocal S) ∨
         (size (getSets G r) = 1 ∧
          head (elements (getSets G r)) ≠ Some (Some t)))) →
  foldM_out (checkInfluenced G h t) l b = AssertFail.
Proof.
  intros Ht. revert b. induction l as [|r l IH]; intros b Hty (r' & Hr' & Hbad).
  - by apply elem_of_nil in Hr'.
  - simpl. destruct (Hty r) as [i Hr]; [by left|].
    assert (∀ b1, foldM_out (checkInfluenced G h t) l b1 = AssertFail ∨ r' = r)
      as Hrest.
    { intros b1. apply elem_of_cons in Hr' as [->|Hr']; [by right|].
      left. apply IH; [|eauto]. intros r0 Hr0. apply Hty. by right. }
    unfold checkInfluenced at 1. rewrite Hr, Ht.
    destruct (decide (i = S)) as [->|Hne]; [|done].
    destruct (decide (size (getSets G r) = 1)) as [Hsz|Hsz].
    + destruct (decide (head (elements (getSets G r)) = Some (Some t)))
        as [Hhd|Hhd]; [|done].
      simpl. destruct (Hrest b) as [Hf| ->]; [done|].
      destruct Hbad as [Hb|[_ Hb]]; done.
    + simpl. destruct (Hrest false) as [Hf| ->]; [done|].
      destruct Hbad as [Hb|[Hb _]]; done.
Qed.

(** X5.  No early exit from the first loop: when the influenced reads are
    reads, one iteration of the loop over the copies fails an assertion
    exactly when some influenced read violates one of the two checks, also
    when another read has already cleared [canDoThemAll]. *)
Theorem optimizeCopy_AssertFail_iff G (h : gmap ptr Expression)
    (copy : ptr) D trivial S get :
  h !! copy = Some (SetLocal D trivial) →
  h !! trivial = Some (SetLocal S get) →
  (∀ r, r ∈ influences G trivial → ∃ i, h !! r = Some (GetLocal i)) →
  optimizeCopy G h copy = AssertFail ↔
  ∃ r, r ∈ influences G trivial ∧
       (h !! r ≠ Some (GetLocal S) ∨
        (size (getSets G r) = 1 ∧
         head (elements (getSets G r)) ≠ Some (Some trivial))).
Proof.
  intros Hc Ht Hty. split.
  - intros Hfail.
    set (good := λ r, h !! r = Some (GetLocal S) ∧
                      (size (getSets G r) = 1 →
                       head (elements (getSets G r)) = Some (Some trivial))).
    destruct (decide (Forall good (elements (influences G trivial))))
      as [Hall|Hnot].
    + rewrite (optimizeCopy_ok G h copy D trivial S get) in Hfail; [done..|].
      intros r Hr%elem_of_elements.
      rewrite Forall_forall in Hall. by apply Hall.
    + apply not_Forall_Exists in Hnot; [|apply _].
      apply Exists_exists in Hnot as (r & Hr%elem_of_elements & Hbad).
      exists r. split; [done|]. unfold good in Hbad.
      destruct (decide (h !! r = Some (GetLocal S))) as [Hg|]; [|by left].
      right. destruct (decide (size (getSets G r) = 1)) as [Hsz|Hsz].
      * split; [done|]. intros Hhd. apply Hbad. by split.
      * exfalso. apply Hbad. split; [done|]. by intros ?.
  - intros (r & Hr & Hbad). unfold optimizeCopy. rewrite Hc, Ht.
    rewrite (check_loop_fail G h trivial S get); [done..| |].
    + intros r' Hr'%elem_of_elements. by apply Hty.
    + exists r. split; [by apply elem_of_elements|done].
Qed.

Lemma optimizeCopy_AssertFail_iff_witness :
  optimizeCopy misreported_graph (heap (walked 10 two_copies)) 2%positive
    = AssertFail.
Proof.
  assert (influences misreported_graph 6%positive = {[ 5%positive ]}) as E
    by (vm_compute; reflexivity).
  apply (optimizeCopy_AssertFail_iff misreported_graph
           (heap (walked 10 two_copies)) 2%positive 1%N 6%positive 0%N
           3%positive).
  - vm_compute; reflexivity.
  - vm_compute; reflexivity.
  - intros r Hr. rewrite E in Hr. apply elem_of_singleton in Hr as ->.
    exists 0%N. vm_compute; reflexivity.
  - exists 5%positive. split; [by_compute|]. right. split; by_compute.
Defined.

(** X6.  A copy record is used up by its iteration: once the loop has
    processed the copies of a tree, the value of each is the read again,
    so a list that names one of them a second time fails the cast of
    [copy->value] to a [SetLocal]. *)
Theorem repeated_copy_fails_cast LG fuel body h0 st copy rest :
  is_tree fuel h0 body = true →
  walk fuel body (mkState h0 []) = Some st →
  graph_contract (heap st) (LG (heap st) body) = true →
  copy ∈ copies st →
  optimizeLoop (LG (heap st) body) (copies st ++ copy :: rest) (heap st)
    = AssertFail.
Proof.
  intros Ht Hw HG Hc.
  destruct (pass_facts LG fuel body h0 st Ht Hw HG)
    as (l & h' & Hpo & Hnd & I & W & Hrun & O).
  rewrite (runPass_unfold LG fuel body h0 st Hw) in Hrun.
  unfold optimizeLoop in *. rewrite foldM_out_app, Hrun. simpl.
  destruct (wfc_shape _ _ W copy Hc) as (D & t & S & g & H1c & H1t & H1g & _).
  pose proof (opt_clean _ _ _ _ O copy D t S g Hc H1c H1t) as Hc'.
  destruct (opt_get _ _ _ _ O g S H1g) as [j Hg'].
  unfold optimizeCopy at 1. by rewrite Hc', Hg'.
Qed.

Lemma repeated_copy_fails_cast_witness :
  optimizeLoop (localGraph 10 (heap (walked 10 two_copies)) 1%positive)
    [2; 4; 2]%positive (heap (walked 10 two_copies)) = AssertFail.
Proof.
  apply (repeated_copy_fails_cast (localGraph 10) 10 1%positive two_copies
           (walked 10 two_copies) 2%positive []);
    [vm_compute; reflexivity .. | by_compute].
Defined.

Lemma kept_shape_refl e : kept_shape e e.
Proof. destruct e; simpl; eauto. Qed.

Lemma kept_shape_trans e1 e2 e3 :
  kept_shape e1 e2 → kept_shape e2 e3 → kept_shape e1 e3.
Proof.
  destruct e1; simpl; try (by intros ->).
  - intros [j ->] [j' ->]. eauto.
  - intros [v ->] [v' ->]. eauto.
Qed.

Lemma heap_kept_shape_refl h : heap_kept_shape h h.
Proof.
  intros p. destruct (h !! p) as [e|]; [|done].
  exists e. split; [done|]. apply kept_shape_refl.
Qed.

Lemma heap_kept_shape_trans h1 h2 h3 :
  heap_kept_shape h1 h2 → heap_kept_shape h2 h3 → heap_kept_shape h1 h3.
Proof.
  intros H12 H23 p. specialize (H12 p). specialize (H23 p).
  destruct (h1 !! p) as [e1|].
  - destruct H12 as (e2 & H2 & K12). rewrite H2 in H23.
    destruct H23 as (e3 & H3 & K23). exists e3. split; [done|].
    by eapply kept_shape_trans.
  - by rewrite H12 in H23.
Qed.

Lemma optimizeCopy_kept_shape G (h h' : gmap ptr Expression) (c : ptr) :
  optimizeCopy G h c = Ok h' → heap_kept_shape h h'.
Proof.
  intros (D & t & S & g & Hc & Ht & Hchk & ->)%optimizeCopy_Ok_inv p.
  assert (∀ r, r ∈ assigned_by G h c → h !! r = Some (GetLocal S)) as Hass.
  { intros r (D' & t' & Hc' & _ & Hr)%elem_of_assigned_by%merges_true.
    rewrite Hc in Hc'. injection Hc' as <- <-. by apply Hchk. }
  assert (foldl (redirect c) h (assigned_by G h c) !! p =
            if decide (p ∈ assigned_by G h c)
            then Some (GetLocal D) else h !! p) as Hred.
  { apply (redirect_all c D t); [done|]. intros r Hr. rewrite Hass; eauto. }
  destruct (decide (p = c)) as [->|Hpc].
  - rewrite lookup_alter_eq, Hred, Hc.
    rewrite decide_False.
    + simpl. eauto.
    + intros Hin. rewrite (Hass c Hin) in Hc. done.
  - rewrite lookup_alter_ne by done. rewrite Hred.
    destruct (decide (p ∈ assigned_by G h c)) as [Hin|Hin].
    + rewrite (Hass p Hin). simpl. eauto.
    + destruct (h !! p) as [e|]; [|done].
      exists e. split; [done|]. apply kept_shape_refl.
Qed.

Lemma optimizeLoop_frame G (cs : list ptr) (h h' : gmap ptr Expression) :
  optimizeLoop G cs h = Ok h' → heap_kept_shape h h'.
Proof.
  unfold optimizeLoop. revert h. induction cs as [|c cs IH]; intros h; simpl.
  - intros [= <-]. apply heap_kept_shape_refl.
  - destruct (optimizeCopy G h c) as [h1| |] eqn:Hstep; try done. simpl.
    intros Hrest. apply (heap_kept_shape_trans h h1 h').
    + by apply (optimizeCopy_kept_shape G h h1 c).
    + by apply IH.
Qed.

(** X7.  The frame of the loop over the copies, for any graph and any copy
    list: when the loop completes, the heap has the same nodes as before;
    a read is still a read, a write is still a write of the same index,
    and every other node is unchanged.  A graph that breaks its contract
    can make the loop assert, but not make it write anything else. *)
Theorem optimizeLoop_kept_shape G (cs : list ptr)
    (h h' : gmap ptr Expression) :
  optimizeLoop G cs h = Ok h' → heap_kept_shape h h'.
Proof. apply optimizeLoop_frame. Qed.

Lemma optimizeLoop_kept_shape_witness :
  heap_kept_shape (heap (walked 10 two_copies)) (passed 10 two_copies).
Proof.
  apply (optimizeLoop_kept_shape
           (localGraph 10 (heap (walked 10 two_copies)) 1%positive)
           (copies (walked 10 two_copies))).
  vm_compute. reflexivity.
Defined.

Lemma wf_copies_perm (h : gmap ptr Expression) (cs cs' : list ptr) :
  cs ≡ₚ cs' → wf_copies h cs → wf_copies h cs'.
Proof.
  intros Hp W.
  assert (∀ c, c ∈ cs' ↔ c ∈ cs) as Hin.
  { intros c. by rewrite Hp. }
  split.
  - rewrite <- Hp. apply (wfc_nodup _ _ W).
  - intros c Hc%Hin. by apply (wfc_shape _ _ W).
  - intros c1 c2 D1 D2 t Hc1%Hin Hc2%Hin. by apply (wfc_inj _ _ W).
  - intros c D t Hc%Hin Hlk Ht%Hin. by apply (wfc_trivial _ _ W c D t).
Qed.

(** The description of the final heap determines it, and mentions the copy
    list only through its elements. *)
Lemma optimized_upto_unique h1 G (cs cs' : list ptr)
    (h h' : gmap ptr Expression) :
  wf_copies h1 cs → (∀ c, c ∈ cs' ↔ c ∈ cs) →
  optimized_upto h1 G cs h → optimized_upto h1 G cs' h' → h = h'.
Proof.
  intros W Hin O O'. apply map_eq. intros q.
  destruct (h1 !! q) as [e|] eqn:H1q.
  - destruct (isGetLocal e) eqn:Hg.
    + destruct e; try done.
      destruct (read_final _ _ _ _ q index O H1q)
        as [[Hno Hkeep]|(c & D & t & Hc & H1c & Hel & Hr & Hm)].
      * rewrite Hkeep. symmetry. apply (opt_kept _ _ _ _ O'); [done|].
        intros c D t Hc%Hin H1c Hel Hr.
        assert (existsb (merges G h1 q) cs = true) as E; [|congruence].
        apply existsb_exists. exists c. split; [by apply list_elem_of_In|].
        apply merges_true. eauto.
      * rewrite Hm. symmetry.
        apply (opt_merged _ _ _ _ O' q index c D t); try done. by apply Hin.
    + destruct (decide (q ∈ cs)) as [Hq|Hq].
      * destruct (wfc_shape _ _ W q Hq) as (D & t & S & g & H1c & H1t & _).
        rewrite (opt_clean _ _ _ _ O q D t S g) by done.
        symmetry. apply (opt_clean _ _ _ _ O' q D t S g); try done.
        by apply Hin.
      * rewrite (opt_other _ _ _ _ O q e) by done.
        symmetry. apply (opt_other _ _ _ _ O'); try done. by rewrite Hin.
  - rewrite (opt_none _ _ _ _ O q H1q). symmetry.
    by apply (opt_none _ _ _ _ O').
Qed.

(** X8.  The order of the copy list does not matter: processing the
    recorded copies of a tree in any other order completes as well and
    leaves the same heap. *)
Theorem copy_order_irrelevant LG fuel body h0 st (cs' : list ptr) :
  is_tree fuel h0 body = true →
  walk fuel body (mkState h0 []) = Some st →
  graph_contract (heap st) (LG (heap st) body) = true →
  copies st ≡ₚ cs' →
  optimizeLoop (LG (heap st) body) cs' (heap st) = runPass LG fuel body h0.
Proof.
  intros Ht Hw HG Hp.
  destruct (pass_facts LG fuel body h0 st Ht Hw HG)
    as (l & h' & Hpo & Hnd & I & W & Hrun & O).
  pose proof (wf_copies_perm _ _ _ Hp W) as W'.
  destruct (optimizeLoop_spec _ _ _ W' HG) as (h'' & Hrun' & O').
  rewrite Hrun, Hrun'. f_equal. symmetry.
  apply (optimized_upto_unique (heap st) (LG (heap st) body) (copies st) cs');
    try done.
  intros c. by rewrite Hp.
Qed.

Lemma copy_order_irrelevant_witness :
  optimizeLoop (localGraph 10 (heap (walked 10 two_copies)) 1%positive)
    [4; 2]%positive (heap (walked 10 two_copies))
  = runPass (localGraph 10) 10 1%positive two_copies.
Proof.
  apply (copy_order_irrelevant (localGraph 10) 10 1%positive two_copies
           (walked 10 two_copies) [4; 2]%positive);
    [vm_compute; reflexivity .. |].
  assert (copies (walked 10 two_copies) = [2; 4]%positive) as ->
    by (vm_compute; reflexivity).
  apply perm_swap.
Defined.

Lemma heap_kept_shape_dom (h h' : gmap ptr Expression) :
  heap_kept_shape h h' → dom h' = dom h.
Proof.
  intros K. apply set_eq. intros p. rewrite !elem_of_dom.
  specialize (K p). destruct (h !! p) as [e|].
  - destruct K as (e' & -> & _). split; eauto.
  - rewrite K. split; intros [? ?]; done.
Qed.

Lemma walk_size fuel h0 body st :
  is_tree fuel h0 body = true →
  walk fuel body (mkState h0 []) = Some st →
  size (heap st) = size h0 + length (copies st).
Proof.
  intros (l & Hpo & Hnd)%is_tree_postorder Hw.
  destruct (walk_tree fuel h0 body l Hpo Hnd) as [Hw' _].
  rewrite Hw in Hw'. injection Hw' as ->.
  pose proof (visit_all_size l (mkState h0 [])) as Hs. simpl in Hs. lia.
Qed.

(** X9.  The pass frees nothing.  After the pass on a tree the heap has
    exactly the nodes the walk left, one more than the input per recorded
    copy; the trivial write of each recorded copy is still allocated,
    unchanged, and still has the copy's read for value, although the copy
    no longer points at it. *)
Theorem pass_leaves_trivial_writes_allocated LG fuel body h0 st :
  is_tree fuel h0 body = true →
  walk fuel body (mkState h0 []) = Some st →
  graph_contract (heap st) (LG (heap st) body) = true →
  ∃ h', runPass LG fuel body h0 = Ok h' ∧
    dom h' = dom (heap st) ∧
    size h' = size h0 + length (copies st) ∧
    ∀ copy D trivial,
      copy ∈ copies st →
      heap st !! copy = Some (SetLocal D trivial) →
      ∃ S get,
        h' !! trivial = Some (SetLocal S get) ∧
        heap st !! trivial = Some (SetLocal S get) ∧
        h' !! copy = Some (SetLocal D get) ∧
        h0 !! trivial = None.
Proof.
  intros Ht Hw HG.
  destruct (pass_facts LG fuel body h0 st Ht Hw HG)
    as (l & h' & Hpo & Hnd & I & W & Hrun & O).
  exists h'. split; [done|].
  assert (dom h' = dom (heap st)) as Hdom.
  { apply heap_kept_shape_dom.
    apply (optimizeLoop_frame (LG (heap st) body) (copies st)).
    by rewrite <- (runPass_unfold LG fuel body h0 st Hw). }
  split; [done|]. split.
  - rewrite <- (size_dom h'), Hdom, size_dom.
    by apply (walk_size fuel h0 body st).
  - intros c D t Hc H1c.
    destruct (wfc_shape _ _ W c Hc) as (D' & t' & S & g & H1c' & H1t & _).
    rewrite H1c in H1c'. injection H1c' as <- <-.
    exists S, g. repeat split; try done.
    + apply (opt_other _ _ _ _ O); [done..|].
      by apply (wfc_trivial _ _ W c D t).
    + by apply (opt_clean _ _ _ _ O c D t S g).
    + destruct (recorded_copy _ _ _ _ I Hc) as [Hl Hcopy].
      destruct (inst_copy _ _ _ I c Hl Hcopy)
        as (D' & g' & S' & t' & _ & _ & _ & H0t & Hc' & _).
      simpl in H0t. rewrite H1c in Hc'. by injection Hc' as <- <-.
Qed.

Lemma pass_leaves_trivial_writes_allocated_witness :
  ∃ h', runPass (localGraph 10) 10 1%positive two_copies = Ok h' ∧
        size h' = size two_copies + 2.
Proof.
  destruct (pass_leaves_trivial_writes_allocated (localGraph 10) 10
              1%positive two_copies (walked 10 two_copies))
    as (h' & Hrun & _ & Hs & _); [vm_compute; reflexivity ..|].
  exists h'. split; [done|]. rewrite Hs. f_equal.
Defined.

Lemma elem_of_assignments G h1 (cs : list ptr) (r : ptr) :
  r ∈ assignments G h1 cs ↔ ∃ c, c ∈ cs ∧ merges G h1 r c = true.
Proof.
  unfold assignments. rewrite list_elem_of_In, in_concat. split.
  - intros (lr & (c & <- & Hc)%in_map_iff & Hr).
    exists c. split; [by apply list_elem_of_In|].
    by apply elem_of_assigned_by, list_elem_of_In.
  - intros (c & Hc & Hm). exists (assigned_by G h1 c). split.
    + apply in_map_iff. exists c. split; [done|]. by apply list_elem_of_In.
    + by apply list_elem_of_In, elem_of_assigned_by.
Qed.

(** X10.  The nodes the pass changes.  After the pass on a tree, a node of
    the input heap differs from what it was exactly when it is one of the
    reads the second loop assigned: a merged read always ends with another
    index than it had, and nothing else is changed at all, so a run that
    merges nothing gives back every input node as it was. *)
Theorem pass_changes_exactly_assigned_reads LG fuel body h0 st :
  is_tree fuel h0 body = true →
  walk fuel body (mkState h0 []) = Some st →
  graph_contract (heap st) (LG (heap st) body) = true →
  ∃ h', runPass LG fuel body h0 = Ok h' ∧
    ∀ p, is_Some (h0 !! p) →
      (h' !! p ≠ h0 !! p ↔
       p ∈ assignments (LG (heap st) body) (heap st) (copies st)).
Proof.
  intros Ht Hw HG.
  destruct (pass_facts LG fuel body h0 st Ht Hw HG)
    as (l & h' & Hpo & Hnd & I & W & Hrun & O).
  destruct (final_frame h0 l st _ h' I O) as [Hwrites Hreads].
  exists h'. split; [done|]. intros p [e H0p].
  rewrite elem_of_assignments. split.
  - intros Hdiff. destruct (isGetLocal e) eqn:Hg.
    + destruct e; try done.
      pose proof (instrumented_get _ _ _ _ _ I H0p) as H1p.
      destruct (read_final _ _ _ _ p index O H1p)
        as [[_ Hkeep]|(c & D & t & Hc & H1c & Hel & Hr & _)].
      * congruence.
      * exists c. split; [done|]. apply merges_true. eauto.
    + rewrite (Hwrites p e H0p Hg) in Hdiff. congruence.
  - intros (c & Hc & (D & t & H1c & Hel & Hr)%merges_true).
    destruct (wfc_shape _ _ W c Hc) as (D' & t' & S & g & H1c' & H1t & _ & Hne).
    rewrite H1c in H1c'. injection H1c' as <- <-.
    pose proof (influenced_is_get _ _ HG t S g p H1t Hr) as H1p.
    pose proof (instrumented_get_back _ _ _ _ _ I H1p) as H0p'.
    simpl in H0p'.
    rewrite (opt_merged _ _ _ _ O p S c D t H1p Hc H1c Hel Hr), H0p'.
    congruence.
Qed.

Lemma pass_changes_exactly_assigned_reads_witness :
  ∃ h', runPass (localGraph 10) 10 1%positive copy_then_branch = Ok h' ∧
        ¬ h' !! 16%positive ≠ copy_then_branch !! 16%positive.
Proof.
  destruct (pass_changes_exactly_assigned_reads (localGraph 10) 10
              1%positive copy_then_branch (walked 10 copy_then_branch))
    as (h' & Hrun & Hiff); [vm_compute; reflexivity ..|].
  exists h'. split; [done|].
  rewrite Hiff.
  - assert (assignments
              (localGraph 10 (heap (walked 10 copy_then_branch)) 1%positive)
              (heap (walked 10 copy_then_branch))
              (copies (walked 10 copy_then_branch)) = []) as ->
      by (vm_compute; reflexivity).
    by intros ?%elem_of_nil.
  - assert (copy_then_branch !! 16%positive = Some (GetLocal 0%N)) as ->
      by (vm_compute; reflexivity).
    eauto.
Defined.

Lemma visit_kept_input (p : ptr) (st : State) (q : ptr) e :
  heap st !! q = Some e →
  ∃ e', heap (visit p st) !! q = Some e' ∧ kept_shape e e'.
Proof.
  intros Hq. destruct (is_copy (heap st) p) eqn:Hc.
  - apply is_copy_true in Hc as (D & g & S & Hp & Hg & Hne).
    rewrite (visit_copy p st D g S Hp Hg Hne). simpl.
    assert (q ≠ alloc (heap st)) as Hqt.
    { intros ->. rewrite alloc_fresh in Hq. done. }
    destruct (decide (q = p)) as [->|Hqp].
    + rewrite lookup_insert_eq. rewrite Hp in Hq. injection Hq as <-.
      simpl. eauto.
    + rewrite lookup_insert_ne, lookup_insert_ne by done.
      exists e. split; [done|]. apply kept_shape_refl.
  - rewrite (visit_not_copy p st Hc). exists e. split; [done|].
    apply kept_shape_refl.
Qed.

Lemma walk_kept_input fuel (p : ptr) (st st' : State) :
  walk fuel p st = Some st' →
  ∀ q e, heap st !! q = Some e →
         ∃ e', heap st' !! q = Some e' ∧ kept_shape e e'.
Proof.
  revert p st st'. induction fuel as [|fuel IH]; intros p st st'; simpl;
    [done|].
  destruct (heap st !! p) as [ep|]; [|done].
  destruct (foldM_opt (walk fuel) (children ep) st) as [st1|] eqn:Hf; [|done].
  intros [= <-] q e Hq.
  assert (∃ e1, heap st1 !! q = Some e1 ∧ kept_shape e e1) as (e1 & Hq1 & K1).
  { clear -IH Hf Hq. revert st e Hf Hq.
    induction (children ep) as [|c cs IHcs]; intros st e Hf Hq; simpl in Hf.
    - injection Hf as <-. exists e. split; [done|]. apply kept_shape_refl.
    - destruct (walk fuel c st) as [st2|] eqn:Hw; [|done].
      destruct (IH c st st2 Hw q e Hq) as (e2 & Hq2 & K2).
      destruct (IHcs st2 e2 Hf Hq2) as (e1 & Hq1 & K1).
      exists e1. split; [done|]. by eapply kept_shape_trans. }
  destruct (visit_kept_input p st1 q e1 Hq1) as (e' & Hq' & K').
  exists e'. split; [done|]. by eapply kept_shape_trans.
Qed.

(** X11.  The frame of the whole pass, for any body, any graph and any
    fuel: whenever the pass completes, every node of the input heap is
    still allocated; a read is still a read, a write is still a write of
    the same index, and every node of another kind is exactly as it
    was. *)
Theorem pass_keeps_node_shapes (LG : Analysis) fuel body
    (h0 h' : gmap ptr Expression) :
  runPass LG fuel body h0 = Ok h' →
  ∀ p e, h0 !! p = Some e → ∃ e', h' !! p = Some e' ∧ kept_shape e e'.
Proof.
  intros Hrun p e H0p. unfold runPass, doWalkFunction in Hrun.
  destruct (walk fuel body (mkState h0 [])) as [st|] eqn:Hw; [|done].
  simpl in Hrun.
  destruct (walk_kept_input fuel body _ st Hw p e H0p) as (e1 & H1p & K1).
  pose proof (optimizeLoop_frame _ _ _ _ Hrun p) as K2.
  rewrite H1p in K2. destruct K2 as (e' & Hp' & K2).
  exists e'. split; [done|]. by eapply kept_shape_trans.
Qed.

Lemma pass_keeps_node_shapes_witness :
  ∃ e', passed 10 increment_after_copy !! 8%positive = Some e' ∧
        kept_shape (GetLocal 0%N) e'.
Proof.
  apply (pass_keeps_node_shapes (localGraph 10) 10 1%positive
           increment_after_copy (passed 10 increment_after_copy));
    vm_compute; reflexivity.
Defined.

Lemma single_set (X : gset (option ptr)) x :
  size X = 1 → head (elements X) = Some x → X = {[ x ]}.
Proof.
  intros Hsz Hhd. apply size_1_elem_of in Hsz as [y Hy].
  apply leibniz_equiv in Hy. subst X.
  rewrite elements_singleton in Hhd. by injection Hhd as ->.
Qed.

Lemma optimizeCopy_renames_singly_reached G (h h' : gmap ptr Expression)
    (c p : ptr) i :
  optimizeCopy G h c = Ok h' →
  h !! p = Some (GetLocal i) → h' !! p ≠ Some (GetLocal i) →
  ∃ t, p ∈ influences G t ∧ getSets G p = {[ Some t ]}.
Proof.
  intros (D & t & S & g & Hc & Ht & Hchk & ->)%optimizeCopy_Ok_inv Hp Hdiff.
  assert (p ≠ c) as Hpc by congruence.
  rewrite lookup_alter_ne in Hdiff by done.
  assert (∀ r, r ∈ assigned_by G h c → ∃ j, h !! r = Some (GetLocal j)) as Hty.
  { intros r (D' & t' & Hc' & _ & Hr)%elem_of_assigned_by%merges_true.
    rewrite Hc in Hc'. injection Hc' as <- <-.
    destruct (Hchk r Hr) as [-> _]. eauto. }
  rewrite (redirect_all c D t _ h p Hc Hty) in Hdiff.
  destruct (decide (p ∈ assigned_by G h c)) as [Hin|Hin]; [|done].
  apply elem_of_assigned_by, merges_true in Hin
    as (D' & t' & Hc' & Hel & Hr).
  rewrite Hc in Hc'. injection Hc' as <- <-.
  exists t. split; [done|].
  rewrite eligible_true in Hel.
  destruct (Hchk p Hr) as [_ Hhd]. apply single_set; auto.
Qed.

(** X12.  Whatever the graph and the copy list: when the loop over the
    copies completes, every read whose index it has changed is one that
    the graph reports with exactly one reaching write, a write that
    influences it. *)
Theorem optimizeLoop_renames_singly_reached G (cs : list ptr)
    (h h' : gmap ptr Expression) (p : ptr) i :
  optimizeLoop G cs h = Ok h' →
  h !! p = Some (GetLocal i) → h' !! p ≠ Some (GetLocal i) →
  ∃ t, p ∈ influences G t ∧ getSets G p = {[ Some t ]}.
Proof.
  unfold optimizeLoop. revert h i.
  induction cs as [|c cs IH]; intros h i; simpl.
  - intros [= <-] Hp Hdiff. done.
  - destruct (optimizeCopy G h c) as [h1| |] eqn:Hstep; try done. simpl.
    intros Hrest Hp Hdiff.
    destruct (decide (h1 !! p = Some (GetLocal i))) as [Hsame|Hchanged].
    + by apply (IH h1 i).
    + by apply (optimizeCopy_renames_singly_reached G h h1 c p i).
Qed.

Lemma optimizeLoop_renames_singly_reached_witness :
  ∃ t, 6%positive ∈ influences
         (localGraph 10 (heap (walked 10 copy_then_read)) 1%positive) t ∧
       getSets (localGraph 10 (heap (walked 10 copy_then_read)) 1%positive)
         6%positive = {[ Some t ]}.
Proof.
  apply (optimizeLoop_renames_singly_reached
           (localGraph 10 (heap (walked 10 copy_then_read)) 1%positive)
           (copies (walked 10 copy_then_read))
           (heap (walked 10 copy_then_read))
           (passed 10 copy_then_read) 6%positive 0%N).
  - vm_compute. reflexivity.
  - vm_compute. reflexivity.
  - assert (passed 10 copy_then_read !! 6%positive = Some (GetLocal 1%N)) as ->
      by (vm_compute; reflexivity).
    discriminate.
Defined.

Lemma visit_records_wrapped (p : ptr) (st : State) :
  records_wrapped st → records_wrapped (visit p st).
Proof.
  intros [Hnd Hrec]. destruct (is_copy (heap st) p) eqn:Hc.
  - apply is_copy_true in Hc as (D & g & S & Hp & Hg & Hne).
    rewrite (visit_copy p st D g S Hp Hg Hne).
    pose proof (alloc_fresh (heap st)) as Hfresh.
    assert (alloc (heap st) ≠ p) as Htp by congruence.
    assert (p ∉ copies st) as Hnew.
    { intros Hin. destruct (Hrec p Hin) as (D' & t & S' & g' & Hp' & Ht).
      rewrite Hp in Hp'. injection Hp' as <- <-. congruence. }
    split; simpl.
    + apply NoDup_app. split; [done|]. split; [|apply NoDup_singleton].
      intros c Hc ->%list_elem_of_singleton. done.
    + intros c [Hc| ->%list_elem_of_singleton]%elem_of_app.
      * destruct (Hrec c Hc) as (D' & t & S' & g' & Hc' & Ht).
        assert (c ≠ p) by congruence.
        assert (c ≠ alloc (heap st)) by congruence.
        destruct (decide (t = p)) as [->|Htp'].
        -- exists D', p, D, (alloc (heap st)).
           rewrite lookup_insert_ne, lookup_insert_ne by done.
           by rewrite lookup_insert_eq.
        -- exists D', t, S', g'.
           assert (t ≠ alloc (heap st)) by congruence.
           by rewrite !lookup_insert_ne by done.
      * exists D, (alloc (heap st)), S, g.
        rewrite lookup_insert_eq, lookup_insert_ne, lookup_insert_eq by done.
        done.
  - by rewrite (visit_not_copy p st Hc).
Qed.

Lemma walk_records_wrapped fuel (p : ptr) (st st' : State) :
  walk fuel p st = Some st' → records_wrapped st → records_wrapped st'.
Proof.
  revert p st st'. induction fuel as [|fuel IH]; intros p st st'; simpl;
    [done|].
  destruct (heap st !! p) as [ep|]; [|done].
  destruct (foldM_opt (walk fuel) (children ep) st) as [st1|] eqn:Hf; [|done].
  intros [= <-] J. apply visit_records_wrapped.
  clear -IH Hf J. revert st Hf J.
  induction (children ep) as [|c cs IHcs]; intros st Hf J; simpl in Hf.
  - by injection Hf as <-.
  - destruct (walk fuel c st) as [st2|] eqn:Hw; [|done].
    apply (IHcs st2 Hf). by apply (IH c st st2).
Qed.

(** X13.  No copy is recorded twice, tree or not: in any heap, also one
    where a node is the operand of several nodes and is visited several
    times, a walk that completes leaves a copy list without repetition,
    and each recorded copy has a [SetLocal] for value, which has a value
    in turn. *)
Theorem walk_never_records_twice fuel body (h0 : gmap ptr Expression)
    (st : State) :
  walk fuel body (mkState h0 []) = Some st →
  NoDup (copies st) ∧
  ∀ c, c ∈ copies st →
    ∃ D t S g, heap st !! c = Some (SetLocal D t) ∧
               heap st !! t = Some (SetLocal S g).
Proof.
  intros Hw. apply (walk_records_wrapped fuel body _ st Hw).
  split; [constructor|]. intros c Hc. by apply elem_of_nil in Hc.
Qed.

Lemma walk_never_records_twice_witness :
  is_tree 10 shared_copy 1%positive = false ∧
  copies (walked 10 shared_copy) = [2%positive] ∧
  NoDup (copies (walked 10 shared_copy)).
Proof.
  split; [vm_compute; reflexivity|]. split; [vm_compute; reflexivity|].
  apply (walk_never_records_twice 10 1%positive shared_copy
           (walked 10 shared_copy)).
  vm_compute. reflexivity.
Defined.
